(** * Instantaneous scheduling with the Sadcher reward-guided matcher

    Shallow embedding of [schedulers/sadcher.py],
    [schedulers/initialize_schedulers.py] and the simulation loop of
    [benchmarking/benchmark_schedulers.py].

    Rewards are modelled as rationals [Q] (tensors of floats in the source);
    tensors are lists of rows.  The trained network, the cached bipartite
    matcher, the feature vectors and the simulator's stepping functions live
    outside these three files and are section variables: every theorem holds
    for all of them. *)

From Stdlib Require Import String List Bool Arith Lia ZArith QArith.
Import ListNotations.

(** ** Python-level values shared by all modules *)

Inductive PyError :=
| ValueError
| TypeError
| RuntimeError
| AttributeError
| IndexError
| LoadError.   (** whatever [torch.load] raises on an unreadable file *)

Inductive result (A : Type) :=
| Ok (a : A)
| Raise (e : PyError).
Arguments Ok {A} a.
Arguments Raise {A} e.

(** Python's [d[k] = v] on a dict kept as an insertion-ordered association
    list: an existing key keeps its position, a new key goes last. *)
Fixpoint dict_set {K V : Type} (eqb : K -> K -> bool)
  (d : list (K * V)) (k : K) (v : V) : list (K * V) :=
  match d with
  | [] => [(k, v)]
  | (k', v') :: d' =>
      if eqb k k' then (k', v) :: d' else (k', v') :: dict_set eqb d' k v
  end.

(** Python slice bounds [l[start:stop]] for a list of length [n]. *)
Definition py_index (n : nat) (k : Z) : nat :=
  if (k <? 0)%Z then Z.to_nat (Z.of_nat n + k) else Nat.min (Z.to_nat k) n.

Definition py_slice {A : Type} (l : list A) (start stop : Z) : list A :=
  let n := length l in
  let a := py_index n start in
  let b := py_index n stop in
  firstn (b - a) (skipn a l).

(** ** The simulation snapshot seen by a scheduler *)

Module Sadcher.

Inductive task_status := PENDING | ACTIVE | DONE.

Definition task_status_eqb (a b : task_status) : bool :=
  match a, b with
  | PENDING, PENDING | ACTIVE, ACTIVE | DONE, DONE => true
  | _, _ => false
  end.

Record Task := mkTask {
  task_id : nat;
  incomplete : bool;
  status : task_status
}.

(** [current_task] is the link [robot.current_task] to a task object, kept
    as the task's identity. *)
Record Robot := mkRobot {
  robot_id : nat;
  available : bool;
  current_task : option nat
}.

Record Sim := mkSim {
  robots : list Robot;
  tasks : list Task;
  task_adjacency : list (list Q)
}.

Definition matrix := list (list Q).

(** The matcher's raw solution: the dict [{(robot, task): val}]. *)
Definition solution := list ((nat * nat) * Q).

(** [Instantaneous_Schedule(robot_assignments)]: dict robot id -> task id. *)
Record Instantaneous_Schedule := mkSchedule {
  robot_assignments : list (nat * nat)
}.

(** What [calculate_robot_assignment] hands back to its caller. *)
Inductive PyRet :=
| RetSchedule (s : Instantaneous_Schedule)
| RetPair (predicted_reward : matrix) (s : Instantaneous_Schedule).

(** [SadcherScheduler.sample_rewards] and its override in
    [StochasticILSadcherScheduler]. *)
Inductive Variant :=
| Deterministic
| Stochastic (stddev : Q).

Definition eps : Q := 1 # 1000000.
Definition sentinel_reward : Q := -1000.

(** ** Tensor operations used by the scheduler *)

Definition Qltb (x y : Q) : bool := negb (Qle_bool y x).

(** [torch.clamp(x, min=m)] *)
Definition clamp_min (m x : Q) : Q := if Qltb x m then m else x.

Definition clamp_matrix (m : Q) (t : matrix) : matrix :=
  map (map (clamp_min m)) t.

(** [torch.normal(mean, std)]: entry [(i, j)] is [mean[i][j] + std * z]
    for a standard-normal draw [z = noise i j]; a negative [std] raises. *)
Definition torch_normal (mean : matrix) (std : Q) (noise : nat -> nat -> Q)
  : result matrix :=
  if Qltb std 0 then Raise RuntimeError
  else Ok (map (fun '(i, row) =>
             map (fun '(j, x) => x + std * noise i j)
                 (combine (seq 0 (length row)) row))
           (combine (seq 0 (length mean)) mean)).

(** [torch.cat((a, b, c), dim=1)]: rows are concatenated; the row counts
    must agree. *)
Fixpoint cat_rows (a b c : matrix) : matrix :=
  match a, b, c with
  | x :: a', y :: b', z :: c' => (x ++ y ++ z) :: cat_rows a' b' c'
  | _, _, _ => []
  end.

Definition cat3 (a b c : matrix) : result matrix :=
  if (length a =? length b) && (length b =? length c)
  then Ok (cat_rows a b c) else Raise RuntimeError.

(** [torch.zeros((n, k))] and [torch.ones(n, 1) * v] *)
Definition zeros (n k : nat) : matrix := repeat (repeat 0 k) n.
Definition column (n : nat) (v : Q) : matrix := repeat [v] n.

(** Reading [t[i][j]]: an index past the end raises [IndexError]. *)
Definition in_bounds (t : matrix) (i j : nat) : bool :=
  match nth_error t i with
  | Some row => Nat.ltb j (length row)
  | None => false
  end.

(** The [if self.debug:] block: for every robot index and every task index
    of the snapshot it reads [predicted_reward_raw[robot_idx][task_idx]] and
    [predicted_reward[robot_idx][task_idx]]; the prints have no other
    effect, so only whether some read is out of range matters. *)
Definition debug_print (debug : bool) (n_robots n_tasks : nat) (raw pred : matrix)
  : result unit :=
  if debug then
    if forallb (fun i => forallb (fun j => in_bounds raw i j && in_bounds pred i j)
                           (seq 0 n_tasks))
               (seq 0 n_robots)
    then Ok tt else Raise IndexError
  else Ok tt.

(** ** [SadcherScheduler] *)

(** External collaborators that leave a trace when called. *)
Inductive Call {Feat : Type} :=
| CallOracle (robot_features task_features : list Feat)
| CallBuildMatcher
| CallSolve (predicted_reward : matrix).
Arguments Call : clear implicits.

Definition is_build_call {Feat : Type} (c : Call Feat) : bool :=
  match c with CallBuildMatcher => true | _ => false end.

Section Scheduler.

Variable Feat : Type.
(** [task.feature_vector(location_normalization, duration_normalization)] *)
Variable task_feature_vector : Q -> Q -> Task -> Feat.
Variable robot_feature_vector : Q -> Q -> Robot -> Feat.
(** [self.trained_model(robot_features, task_features, task_adjacency)] *)
Variable trained_model : list Feat -> list Feat -> list (list Q) -> matrix.
(** [CachedBipartiteMatcher(sim)] and its [solve] *)
Variable Matcher : Type.
Variable CachedBipartiteMatcher : Sim -> Matcher.
Variable solve : Matcher -> matrix -> Matcher * solution.
(** [schedulers/filtering_assignments.py] *)
Variable filter_redundant_assignments : solution -> Sim -> solution.
Variable filter_overassignments : solution -> Sim -> solution.

Record SchedulerState := mkScheduler {
  debug : bool;
  duration_normalization : Q;
  location_normalization : Q;
  bipartite_matcher : option Matcher;
  variant : Variant
}.

Definition set_matcher (st : SchedulerState) (m : Matcher) : SchedulerState :=
  mkScheduler (debug st) (duration_normalization st) (location_normalization st)
    (Some m) (variant st).

Definition sample_rewards (v : Variant) (noise : nat -> nat -> Q)
  (predicted_reward : matrix) : result matrix :=
  match v with
  | Deterministic => Ok predicted_reward
  | Stochastic stddev =>
      match torch_normal predicted_reward stddev noise with
      | Ok t => Ok (clamp_matrix eps t)
      | Raise e => Raise e
      end
  end.

Definition extract_task_robot_features (st : SchedulerState) (sim : Sim)
  : list Feat * list Feat :=
  let ln := location_normalization st in
  let dn := duration_normalization st in
  (map (task_feature_vector ln dn) (py_slice (tasks sim) 1 (-2)),
   map (robot_feature_vector ln dn) (robots sim)).

(** One decision point: the scheduler's new state, the (possibly mutated)
    snapshot, the trace of external calls and the returned value. *)
Record Outcome := mkOutcome {
  out_sched : SchedulerState;
  out_sim : Sim;
  out_calls : list (Call Feat);
  out_ret : result PyRet
}.

Definition assign_current_task (tid : nat) (r : Robot) : Robot :=
  if available r then mkRobot (robot_id r) (available r) (Some tid) else r.

Definition pending_incomplete (sim : Sim) : list Task :=
  filter (fun t => incomplete t && task_status_eqb (status t) PENDING)
    (tasks sim).

Definition collect_assignments (sol : solution) : list (nat * nat) :=
  fold_left (fun d '((r, t), val) =>
               if Qeq_bool val 1 then dict_set Nat.eqb d r t else d)
    sol [].

Definition calculate_robot_assignment (st : SchedulerState)
  (noise : nat -> nat -> Q) (sim : Sim) : Outcome :=
  let n_robots := length (robots sim) in
  let available_robots := filter available (robots sim) in
  match pending_incomplete sim with
  | [last] =>
      (* Only end task incomplete: send every available robot there *)
      let ra := fold_left (fun d r => dict_set Nat.eqb d (robot_id r) (task_id last))
                  available_robots [] in
      let sim' := mkSim (map (assign_current_task (task_id last)) (robots sim))
                    (tasks sim) (task_adjacency sim) in
      mkOutcome st sim' []
        (Ok (RetPair (zeros n_robots (length (tasks sim))) (mkSchedule ra)))
  | _ =>
      let '(task_features, robot_features) := extract_task_robot_features st sim in
      let raw := trained_model robot_features task_features (task_adjacency sim) in
      let calls := [CallOracle robot_features task_features] in
      let clamped := clamp_matrix eps raw in
      match sample_rewards (variant st) noise clamped with
      | Raise e => mkOutcome st sim calls (Raise e)
      | Ok sampled =>
          let start_end := column n_robots sentinel_reward in
          match cat3 start_end sampled start_end with
          | Raise e => mkOutcome st sim calls (Raise e)
          | Ok predicted_reward =>
              (* predicted_reward_raw, only read by the debug block *)
              match cat3 start_end raw start_end with
              | Raise e => mkOutcome st sim calls (Raise e)
              | Ok predicted_reward_raw =>
                  match debug_print (debug st) n_robots (length (tasks sim))
                          predicted_reward_raw predicted_reward with
                  | Raise e => mkOutcome st sim calls (Raise e)
                  | Ok _ =>
                  let '(m, calls') :=
                    match bipartite_matcher st with
                    | None => (CachedBipartiteMatcher sim, calls ++ [CallBuildMatcher])
                    | Some m => (m, calls)
                    end in
                  let '(m', sol) := solve m predicted_reward in
                  let filtered :=
                    filter_overassignments (filter_redundant_assignments sol sim) sim in
                  mkOutcome (set_matcher st m') sim
                    (calls' ++ [CallSolve predicted_reward])
                    (Ok (RetPair predicted_reward
                           (mkSchedule (collect_assignments filtered))))
                  end
              end
          end
      end
  end.

(** The same scheduler object called at successive decision points, as the
    loop of [run_one_simulation] does: the scheduler state threads through,
    the external calls accumulate. *)
Fixpoint decision_points (st : SchedulerState)
  (inputs : list ((nat -> nat -> Q) * Sim)) : SchedulerState * list (Call Feat) :=
  match inputs with
  | [] => (st, [])
  | (noise, sim) :: rest =>
      let o := calculate_robot_assignment st noise sim in
      let '(st', calls) := decision_points (out_sched o) rest in
      (st', out_calls o ++ calls)
  end.

End Scheduler.

Arguments out_sched {Feat Matcher} _.
Arguments out_sim {Feat Matcher} _.
Arguments out_calls {Feat Matcher} _.
Arguments out_ret {Feat Matcher} _.
Arguments bipartite_matcher {Matcher} _.
Arguments variant {Matcher} _.
Arguments duration_normalization {Matcher} _.
Arguments location_normalization {Matcher} _.
Arguments debug {Matcher} _.

End Sadcher.

(** ** Assignment filters *)

Module Filters.
Import Sadcher.

Definition entry := ((nat * nat) * Q)%type.

(** A pair of the raw solution is selected when its value is [1]. *)
Definition selected (e : entry) : bool := Qeq_bool (snd e) 1.

(** Keep [e] unless a selected entry of [l] beats it. *)
Definition unbeaten (beats : entry -> entry -> bool) (l : list entry) (e : entry)
  : bool :=
  negb (selected e) || negb (existsb (fun e' => selected e' && beats e' e) l).

Section Filters.

Variable sim : Sim.

(** Modelled from the spec: [filter_redundant_assignments] of
    [schedulers/filtering_assignments.py] (not in this repository's sources).
    It drops a selected pair whose robot is already committed to that task,
    then, among the selected pairs claiming one task, keeps the one with the
    lowest robot index. *)
Definition committed (r t : nat) : bool :=
  existsb (fun rb => (robot_id rb =? r) &&
                     match current_task rb with Some t' => t' =? t | None => false end)
    (robots sim).

Definition not_committed (e : entry) : bool :=
  negb (selected e) || negb (committed (fst (fst e)) (snd (fst e))).

Definition lower_robot_same_task (e' e : entry) : bool :=
  (snd (fst e') =? snd (fst e)) && (fst (fst e') <? fst (fst e)).

Definition filter_redundant_assignments (sol : solution) : solution :=
  let l := filter not_committed sol in
  filter (unbeaten lower_robot_same_task l) l.

(** Modelled from the spec: [filter_overassignments] of
    [schedulers/filtering_assignments.py] (not in this repository's sources).
    Each task keeps its [capacity]-many highest-reward selected pairs, then
    each robot keeps only its highest-reward selected pair; equal rewards
    are ordered by index. *)
Variable reward : nat -> nat -> Q.
Variable capacity : nat -> nat.

Definition better (r1 t1 r2 t2 : nat) (by_robot : bool) : bool :=
  Qltb (reward r2 t2) (reward r1 t1)
  || (Qeq_bool (reward r1 t1) (reward r2 t2)
      && (if by_robot then r1 <? r2 else t1 <? t2)).

Definition beats_on_task (e' e : entry) : bool :=
  (snd (fst e') =? snd (fst e))
  && better (fst (fst e')) (snd (fst e')) (fst (fst e)) (snd (fst e)) true.

Definition beats_on_robot (e' e : entry) : bool :=
  (fst (fst e') =? fst (fst e))
  && better (fst (fst e')) (snd (fst e')) (fst (fst e)) (snd (fst e)) false.

Definition within_capacity (l : list entry) (e : entry) : bool :=
  negb (selected e)
  || (length (filter (fun e' => selected e' && beats_on_task e' e) l)
        <? capacity (snd (fst e))).

Definition filter_overassignments (sol : solution) : solution :=
  let l := filter (within_capacity sol) sol in
  filter (unbeaten beats_on_robot l) l.

End Filters.
End Filters.

(** ** Scheduler construction: [initialize_schedulers.py] and
    [SadcherScheduler.load_model_weights] *)

Module Init.
Import Sadcher.
#[local] Open Scope string_scope.
#[local] Set Warnings "-register-all".

(** The [checkpoint_path] argument. *)
Inductive CkPath :=
| CkNone
| CkStr (path : string)
| CkOther.   (** any object that is not a string *)

(** What [torch.load] returns: a tensor of a given size, or a dict. *)
Inductive CkObj :=
| CTensor (size : list nat)
| CDict (entries : list (string * CkObj)).

Fixpoint lookup_str {V : Type} (k : string) (d : list (string * V)) : option V :=
  match d with
  | [] => None
  | (k', v) :: d' => if String.eqb k k' then Some v else lookup_str k d'
  end.

(** [o.get(k, default)] *)
Definition py_get (o : CkObj) (k : string) (default : CkObj) : result CkObj :=
  match o with
  | CDict es => Ok (match lookup_str k es with Some v => v | None => default end)
  | CTensor _ => Raise AttributeError
  end.

Definition prefix_str : string := "scheduler_net.".

Definition strip_prefix (k : string) : string :=
  if String.prefix prefix_str k
  then substring (String.length prefix_str) (String.length k - String.length prefix_str) k
  else k.

(** The dict comprehension over [checkpoint_state_dict.items()]. *)
Definition strip_keys (items : list (string * CkObj)) : list (string * CkObj) :=
  fold_left (fun d '(k, v) => dict_set String.eqb d (strip_prefix k) v) items [].

Definition list_nat_eqb (a b : list nat) : bool :=
  Nat.eqb (length a) (length b) && forallb (fun '(x, y) => Nat.eqb x y) (combine a b).

(** [k in current_state_dict and v.size() == current_state_dict[k].size()] *)
Definition keep_entry (current : list (string * list nat)) (k : string) (v : CkObj)
  : result bool :=
  match lookup_str k current with
  | None => Ok false
  | Some sz =>
      match v with
      | CTensor sz' => Ok (list_nat_eqb sz' sz)
      | CDict _ => Raise AttributeError
      end
  end.

Fixpoint filter_checkpoint (current : list (string * list nat))
  (items : list (string * CkObj)) : result (list (string * CkObj)) :=
  match items with
  | [] => Ok []
  | (k, v) :: rest =>
      match keep_entry current k v, filter_checkpoint current rest with
      | Raise e, _ => Raise e
      | Ok _, Raise e => Raise e
      | Ok true, Ok r => Ok ((k, v) :: r)
      | Ok false, Ok r => Ok r
      end
  end.

Section Construction.

(** [torch.load(path, ...)] on the file system. *)
Variable torch_load : string -> result CkObj.
(** [self.trained_model.state_dict()]: parameter names and sizes. *)
Variable model_state_dict : list (string * list nat).
(** [RLSadcherScheduler(...)] of [schedulers/sadcherRL.py]. *)
Variable RLState : Type.
Variable RLSadcherScheduler : CkPath -> result RLState.

(** Returns the layers loaded into the network; the skipped ones are only
    printed. *)
Definition load_model_weights (checkpoint_path : CkPath)
  : result (list (string * CkObj)) :=
  match checkpoint_path with
  | CkNone => Raise ValueError
  | CkOther => Raise ValueError
  | CkStr p =>
      match torch_load p with
      | Raise e => Raise e
      | Ok checkpoint =>
          match py_get checkpoint "state_dict" checkpoint with
          | Raise e => Raise e
          | Ok c1 =>
              match py_get c1 "policy" checkpoint with
              | Raise e => Raise e
              | Ok (CTensor _) => Raise AttributeError   (* .items() *)
              | Ok (CDict items) =>
                  filter_checkpoint model_state_dict (strip_keys items)
              end
          end
      end
  end.

Inductive Scheduler :=
| Greedy
| RandomBipartite
| SadcherSch (v : Variant) (loaded : list (string * CkObj))
| RLSadcherSch (s : RLState).

Definition create_scheduler (name : string) (checkpoint_path : CkPath) (stddev : Q)
  : result Scheduler :=
  if String.eqb name "greedy" then Ok Greedy
  else if String.eqb name "random_bipartite" then Ok RandomBipartite
  else if String.eqb name "sadcher" then
    match load_model_weights checkpoint_path with
    | Ok l => Ok (SadcherSch Deterministic l)
    | Raise e => Raise e
    end
  else if String.eqb name "rl_sadcher" || String.eqb name "rl_sadcher_sampling" then
    match RLSadcherScheduler checkpoint_path with
    | Ok s => Ok (RLSadcherSch s)
    | Raise e => Raise e
    end
  else if String.eqb name "stochastic_IL_sadcher" then
    match load_model_weights checkpoint_path with
    | Ok l => Ok (SadcherSch (Stochastic stddev) l)
    | Raise e => Raise e
    end
  else Raise ValueError.

End Construction.

(** Python's binding of call arguments to a function's parameters: too many
    positionals, an unknown keyword or a keyword also given positionally is
    a [TypeError] before the body runs. *)
Definition bind_call (params : list string) (n_positional : nat)
  (keywords : list string) : result unit :=
  if Nat.ltb (length params) n_positional then Raise TypeError
  else if existsb (fun k => negb (existsb (String.eqb k) params)) keywords
  then Raise TypeError
  else if existsb (fun k => existsb (String.eqb k) (firstn n_positional params)) keywords
  then Raise TypeError
  else Ok tt.

Definition create_scheduler_params : list string :=
  ["name"; "checkpoint_path"; "duration_normalization";
   "location_normalization"; "debugging"; "stddev"].

End Init.

(** ** [run_one_simulation] of [benchmark_schedulers.py] *)

Module Benchmark.
Import Sadcher Init.
#[local] Open Scope string_scope.

(** The fields of [problem_instance] read here: execution durations
    ["T_e"] and travel times ["T_t"]. *)
Record ProblemInstance := mkInstance {
  T_e : list Q;
  T_t : list (list Q)
}.

Definition qmax (x y : Q) : Q := if Qle_bool x y then y else x.

(** [np.max(row)]: an empty row raises. *)
Definition np_max (row : list Q) : result Q :=
  match row with
  | [] => Raise ValueError
  | x :: xs => Ok (fold_left qmax xs x)
  end.

Definition np_sum (l : list Q) : Q := fold_left Qplus l 0.

(** [[np.max(T_t[task]) for task in ks]] *)
Fixpoint max_travel (t_t : list (list Q)) (ks : list nat) : result (list Q) :=
  match ks with
  | [] => Ok []
  | k :: ks' =>
      match nth_error t_t k with
      | None => Raise IndexError
      | Some row =>
          match np_max row, max_travel t_t ks' with
          | Raise e, _ => Raise e
          | Ok _, Raise e => Raise e
          | Ok m, Ok ms => Ok (m :: ms)
          end
      end
  end.

Definition worst_case_makespan (pi : ProblemInstance) : result Q :=
  match max_travel (T_t pi) (seq 0 (length (T_e pi))) with
  | Raise e => Raise e
  | Ok ms => Ok (np_sum (T_e pi) + np_sum ms)
  end.

(** [isinstance(scheduler, SadcherScheduler)]: true for both Sadcher
    variants ([StochasticILSadcherScheduler] is a subclass); whether
    [RLSadcherScheduler] (of [schedulers/sadcherRL.py], not in this
    repository) is one is left as a parameter. *)
Definition is_sadcher_instance {RLState : Type} (rl_is_sadcher : bool)
  (sch : Scheduler RLState) : bool :=
  match sch with
  | SadcherSch _ _ _ => true
  | RLSadcherSch _ _ => rl_is_sadcher
  | Greedy _ | RandomBipartite _ => false
  end.

(** The loop body's use of the answer of [calculate_robot_assignment]: for
    a [SadcherScheduler] it is unpacked as
    [predicted_reward, instantaneous_schedule] and the tensor goes to
    [sim.find_highest_non_idle_reward]; for any other scheduler the answer
    itself is the [instantaneous_schedule].  Returns what is passed to
    [find_highest_non_idle_reward] (if anything) and what is passed to
    [sim.assign_tasks_to_robots].  An [Instantaneous_Schedule] (not in this
    repository) is taken not to unpack into two values. *)
Definition driver_handoff (is_sadcher : bool) (ret : PyRet)
  : result (option matrix * PyRet) :=
  if is_sadcher then
    match ret with
    | RetPair predicted_reward instantaneous_schedule =>
        Ok (Some predicted_reward, RetSchedule instantaneous_schedule)
    | RetSchedule _ => Raise TypeError
    end
  else Ok (None, ret).

Section Run.

Variable SimObj : Type.
(** [Simulation(problem_instance, scheduler_name)] and the attributes and
    methods of [simulator_2D.Simulation] used by the loop. *)
Variable Simulation : ProblemInstance -> string -> SimObj.
Variable sim_done : SimObj -> bool.
Variable timestep : SimObj -> Q.
Variable makespan : SimObj -> Q.
Variable step_until_next_decision_point : SimObj -> SimObj.
(** What [create_scheduler] depends on. *)
Variable torch_load : string -> result CkObj.
Variable model_state_dict : list (string * list nat).
Variable RLState : Type.
Variable RLSadcherScheduler : CkPath -> result RLState.
(** One pass of the loop body before stepping: the scheduler's
    [calculate_robot_assignment(sim)] (with [find_highest_non_idle_reward]
    for Sadcher schedulers) and [sim.assign_tasks_to_robots(schedule)]. *)
Variable decision_point : Scheduler RLState -> SimObj -> Scheduler RLState * SimObj.

(** The [while not sim.sim_done] loop, with [fuel] bounding the number of
    iterations ([None] when it runs out).  On the bound check the source sets
    [sim.makespan = worst_case_makespan] and then returns [sim.makespan]. *)
Fixpoint sim_loop (fuel : nat) (worst : Q) (sch : Scheduler RLState) (sim : SimObj)
  : option (Q * bool) :=
  match fuel with
  | O => None
  | Datatypes.S n =>
      if sim_done sim then Some (makespan sim, true)
      else
        let '(sch', sim1) := decision_point sch sim in
        let sim2 := step_until_next_decision_point sim1 in
        if Qltb worst (timestep sim2) then Some (worst, false)
        else sim_loop n worst sch' sim2
  end.

(** The keywords of the [create_scheduler(...)] call in
    [run_one_simulation]; it also passes two positionals. *)
Definition run_create_keywords : list string :=
  ["model_name"; "duration_normalization"; "location_normalization"; "stddev"].

(** Returns [(makespan, feasible)]; the list of wall-clock computation
    times is not modelled. *)
Definition run_one_simulation (fuel : nat) (problem_instance : ProblemInstance)
  (scheduler_name : string) (checkpoint_path : CkPath)
  : result (option (Q * bool)) :=
  match worst_case_makespan problem_instance with
  | Raise e => Raise e
  | Ok worst =>
      let sim := Simulation problem_instance scheduler_name in
      match bind_call create_scheduler_params 2 run_create_keywords with
      | Raise e => Raise e
      | Ok _ =>
          match create_scheduler torch_load model_state_dict RLState
                  RLSadcherScheduler scheduler_name checkpoint_path (1 # 2) with
          | Raise e => Raise e
          | Ok scheduler => Ok (sim_loop fuel worst scheduler sim)
          end
      end
  end.

End Run.
End Benchmark.

(** ** A small instance of the scheduler's collaborators *)

Module Sample.
Import Sadcher.

(** Feature vectors reduced to identities; the network returns [1/2] for
    every robot and every task it is shown, plus one extra column. *)
Definition tfv (ln dn : Q) (t : Task) : nat := task_id t.
Definition rfv (ln dn : Q) (r : Robot) : nat := robot_id r.
Definition oracle (rf tf : list nat) (adj : list (list Q)) : matrix :=
  map (fun _ => map (fun _ => 1 # 2) tf ++ [1 # 2]) rf.
Definition build (s : Sim) : unit := tt.
Definition solve (m : unit) (r : matrix) : unit * solution :=
  (m, [((0%nat, 1%nat), 1%Q)]).
Definition keep (sol : solution) (s : Sim) : solution := sol.
Definition st (v : Variant) : SchedulerState unit :=
  mkScheduler unit false 100 100 None v.
Definition noise (i j : nat) : Q := 1.
Definition calc (v : Variant) (sim : Sim) : Outcome nat unit :=
  calculate_robot_assignment nat tfv rfv oracle unit build solve keep keep (st v)
    noise sim.
Definition extract (sim : Sim) : list nat * list nat :=
  extract_task_robot_features nat tfv rfv unit (st Deterministic) sim.

Definition start_task : Task := mkTask 0 false DONE.
Definition end_task : Task := mkTask 2 true PENDING.
Definition robot0 : Robot := mkRobot 0 true None.

(** All real tasks done, the end task pending; robot 1 is busy. *)
Definition endgame_sim : Sim :=
  mkSim [robot0; mkRobot 1 false (Some 1%nat)] [start_task; mkTask 1 false DONE; end_task] [].

(** All real tasks done, the end task already in progress. *)
Definition end_active_sim : Sim :=
  mkSim [robot0] [start_task; mkTask 1 false DONE; mkTask 2 true ACTIVE] [].

(** Two real tasks pending. *)
Definition running_sim : Sim :=
  mkSim [robot0]
    [start_task; mkTask 1 true PENDING; mkTask 2 true PENDING; mkTask 3 true PENDING] [].

End Sample.

(** * Properties of the scheduler *)

Module SadcherFacts.
Import Sadcher.

(** ** Dict updates *)

Lemma dict_set_In_inv (d : list (nat * nat)) k v k' w :
  In (k', w) (dict_set Nat.eqb d k v) -> (k' = k /\ w = v) \/ In (k', w) d.
Proof.
  induction d as [|[k0 v0] d IH]; simpl.
  - intros [H|[]]. injection H as <- <-. auto.
  - destruct (Nat.eqb k k0) eqn:E.
    + apply Nat.eqb_eq in E as ->.
      intros [H|H]; [injection H as <- <-; auto | auto].
    + intros [H|H]; [right; left; exact H|].
      destruct (IH H) as [?|?]; auto.
Qed.

Lemma dict_set_In_new (d : list (nat * nat)) k v :
  In (k, v) (dict_set Nat.eqb d k v).
Proof.
  induction d as [|[k0 v0] d IH]; simpl; [now left|].
  destruct (Nat.eqb k k0) eqn:E; [apply Nat.eqb_eq in E as ->; now left | now right].
Qed.

Lemma dict_set_In_keep (d : list (nat * nat)) k v k' :
  In (k', v) d -> In (k', v) (dict_set Nat.eqb d k v).
Proof.
  induction d as [|[k0 v0] d IH]; simpl; [tauto|].
  destruct (Nat.eqb k k0) eqn:E.
  - apply Nat.eqb_eq in E; subst. intros [H|H].
    + injection H as -> ->. now left.
    + now right.
  - intros [H|H]; [now left | right; auto].
Qed.

Section EndGame.
Variable v : nat.

Definition assign_all (l : list Robot) (d : list (nat * nat)) :=
  fold_left (fun d r => dict_set Nat.eqb d (robot_id r) v) l d.

Lemma assign_all_inv l d k w :
  In (k, w) (assign_all l d) ->
  In (k, w) d \/ (w = v /\ exists r, In r l /\ robot_id r = k).
Proof.
  revert d. induction l as [|r l IH]; simpl; intros d H; [auto|].
  destruct (IH _ H) as [H1|[-> [r' [Hr' Hk]]]].
  - destruct (dict_set_In_inv _ _ _ _ _ H1) as [[-> ->]|H2]; [|auto].
    right. split; [reflexivity|]. exists r. auto.
  - right. split; [reflexivity|]. exists r'. auto.
Qed.

Lemma assign_all_keep l d k :
  In (k, v) d -> In (k, v) (assign_all l d).
Proof.
  revert d. induction l as [|r l IH]; simpl; intros d H; [exact H|].
  apply IH. apply dict_set_In_keep. exact H.
Qed.

Lemma assign_all_new l d r :
  In r l -> In (robot_id r, v) (assign_all l d).
Proof.
  revert d. induction l as [|r0 l IH]; simpl; intros d H; [tauto|].
  destruct H as [->|H].
  - apply assign_all_keep. apply dict_set_In_new.
  - apply IH. exact H.
Qed.

End EndGame.

(** ** Rows of a concatenated tensor *)

Lemma In_cat_rows a b c row :
  In row (cat_rows a b c) ->
  exists x y z, In x a /\ In y b /\ In z c /\ row = x ++ y ++ z.
Proof.
  revert b c. induction a as [|x a IH]; intros [|y b] [|z c]; simpl; try tauto.
  intros [<-|H].
  - exists x, y, z. auto.
  - destruct (IH _ _ H) as (x' & y' & z' & H1 & H2 & H3 & H4).
    exists x', y', z'. auto.
Qed.

Lemma cat_rows_length a b c :
  length a = length b -> length b = length c -> length (cat_rows a b c) = length a.
Proof.
  revert b c. induction a as [|x a IH]; intros [|y b] [|z c]; simpl; try lia.
  intros H1 H2. f_equal. apply IH; lia.
Qed.

Lemma cat3_ok a b c r :
  cat3 a b c = Ok r -> r = cat_rows a b c /\ length a = length b /\ length b = length c.
Proof.
  unfold cat3. destruct (length a =? length b) eqn:E1, (length b =? length c) eqn:E2;
    simpl; try discriminate.
  intros H. injection H as <-. apply Nat.eqb_eq in E1, E2. auto.
Qed.

Lemma In_column n s x : In x (column n s) -> x = [s].
Proof. unfold column. apply repeat_spec. Qed.

(** ** The floor clamp *)

Lemma clamp_min_ge m x : m <= clamp_min m x.
Proof.
  unfold clamp_min, Qltb. destruct (Qle_bool m x) eqn:E; simpl.
  - apply Qle_bool_iff. exact E.
  - apply Qle_refl.
Qed.

Lemma clamp_matrix_ge m t row x :
  In row (clamp_matrix m t) -> In x row -> m <= x.
Proof.
  unfold clamp_matrix. intros Hrow Hx.
  apply in_map_iff in Hrow as [row0 [<- _]].
  apply in_map_iff in Hx as [x0 [<- _]].
  apply clamp_min_ge.
Qed.

(** Both variants return entries at or above the floor when given a
    clamped tensor. *)
Lemma sample_rewards_ge v noise t sampled row x :
  sample_rewards v noise (clamp_matrix eps t) = Ok sampled ->
  In row sampled -> In x row -> eps <= x.
Proof.
  destruct v as [|sd]; simpl.
  - intros H. injection H as <-. apply clamp_matrix_ge.
  - destruct (torch_normal _ sd noise); intros H; [|discriminate].
    injection H as <-. apply clamp_matrix_ge.
Qed.

(** ** Decision points *)

Ltac raise_case :=
  repeat split; [eauto|]; left; eexists; split; [reflexivity|];
  let m := fresh "m" in let H := fresh "H" in
  intros m [H|[]]; discriminate.

Section Facts.
Context {Feat : Type} (tfv : Q -> Q -> Task -> Feat) (rfv : Q -> Q -> Robot -> Feat)
  (tm : list Feat -> list Feat -> list (list Q) -> matrix)
  {Matcher : Type} (build : Sim -> Matcher) (slv : Matcher -> matrix -> Matcher * solution)
  (fr fo : solution -> Sim -> solution).

Local Abbreviation calc := (calculate_robot_assignment Feat tfv rfv tm Matcher build slv fr fo).
Local Abbreviation extract := (extract_task_robot_features Feat tfv rfv Matcher).

Lemma endgame_outcome st noise sim t :
  pending_incomplete sim = [t] ->
  calc st noise sim =
  mkOutcome Feat Matcher st
    (mkSim (map (assign_current_task (task_id t)) (robots sim)) (tasks sim)
       (task_adjacency sim)) []
    (Ok (RetPair (zeros (length (robots sim)) (length (tasks sim)))
           (mkSchedule (assign_all (task_id t) (filter available (robots sim)) [])))).
Proof. intros H. unfold calculate_robot_assignment. rewrite H. reflexivity. Qed.

(** Off the end-game path the snapshot is left as it was, the oracle is
    called first on the extracted features, and the matcher, if reached,
    is called once on the sampled rewards framed by sentinel columns. *)
Lemma general_outcome st noise sim :
  (forall t, pending_incomplete sim <> [t]) ->
  let o := calc st noise sim in
  out_sim o = sim /\
  (exists rest, out_calls o = CallOracle (snd (extract st sim)) (fst (extract st sim)) :: rest) /\
  ((exists e, out_ret o = Raise e /\ forall m, ~ In (CallSolve m) (out_calls o)) \/
   exists sampled sch,
     sample_rewards (variant st) noise
       (clamp_matrix eps (tm (snd (extract st sim)) (fst (extract st sim))
                            (task_adjacency sim))) = Ok sampled /\
     length sampled = length (robots sim) /\
     out_ret o = Ok (RetPair (cat_rows (column (length (robots sim)) sentinel_reward)
                                sampled (column (length (robots sim)) sentinel_reward)) sch) /\
     forall m, In (CallSolve m) (out_calls o) ->
       m = cat_rows (column (length (robots sim)) sentinel_reward)
             sampled (column (length (robots sim)) sentinel_reward)).
Proof.
  intros Hn. cbv zeta. unfold calculate_robot_assignment.
  destruct (pending_incomplete sim) as [|t [|t' l]] eqn:Hp;
    [| exfalso; exact (Hn t eq_refl) |];
  destruct (extract st sim) as [tf rf] eqn:Hx; simpl;
  match goal with |- context [sample_rewards ?a ?b ?c] =>
    destruct (sample_rewards a b c) as [sampled|e] eqn:Hs end;
  try (simpl; raise_case);
  match goal with |- context [cat3 ?a ?s ?c] =>
    is_var s; destruct (cat3 a s c) as [pr|e] eqn:Hc1 end;
  try (simpl; raise_case);
  match goal with |- context [cat3 ?a (tm ?x ?y ?z) ?c] =>
    destruct (cat3 a (tm x y z) c) as [pr_raw|e] eqn:Hc2 end;
  try (simpl; raise_case);
  match goal with |- context [debug_print ?a ?b ?c ?d ?e] =>
    destruct (debug_print a b c d e) as [[]|e'] eqn:Hdbg end;
  try (simpl; raise_case);
  apply cat3_ok in Hc1 as (-> & Hl1 & Hl2);
  unfold column in Hl1; rewrite repeat_length in Hl1;
  (destruct (bipartite_matcher st) as [m0|];
   match goal with |- context [slv ?a ?b] => destruct (slv a b) as [m' sol] end; simpl);
  (repeat split; [eauto|]; right;
   exists sampled, (mkSchedule (collect_assignments (fo (fr sol sim) sim)));
   repeat split; auto;
   intros m Hm; repeat (destruct Hm as [Hm|Hm]; [try discriminate|]);
   try (injection Hm as <-; reflexivity); destruct Hm).
Qed.

End Facts.
End SadcherFacts.

(** * Claims about a decision point *)

Module Claims.
Import Sadcher SadcherFacts.

Lemma py_slice_1_m2 {A : Type} (l : list A) :
  py_slice l 1 (-2) = firstn (length l - 3) (skipn 1 l).
Proof.
  destruct l as [|a l]; [reflexivity|].
  unfold py_slice, py_index. simpl length. f_equal.
  cbn -[Z.of_nat]. lia.
Qed.

Section Decision.
Context {Feat : Type} (tfv : Q -> Q -> Task -> Feat) (rfv : Q -> Q -> Robot -> Feat)
  (tm : list Feat -> list Feat -> list (list Q) -> matrix)
  {Matcher : Type} (build : Sim -> Matcher) (slv : Matcher -> matrix -> Matcher * solution)
  (fr fo : solution -> Sim -> solution).

Local Abbreviation calc := (calculate_robot_assignment Feat tfv rfv tm Matcher build slv fr fo).
Local Abbreviation extract := (extract_task_robot_features Feat tfv rfv Matcher).

Lemma not_singleton_general (sim : Sim) :
  match pending_incomplete sim with [_] => False | _ => True end ->
  forall t, pending_incomplete sim <> [t].
Proof. destruct (pending_incomplete sim) as [|? [|? ?]]; congruence. Qed.

(** C1: when exactly one task is both incomplete and PENDING, every
    available robot is assigned to it and to nothing else, the returned
    reward tensor is all zeros, and neither the network nor the matcher is
    called. *)
Theorem endgame_assigns_available_robots st noise sim t :
  pending_incomplete sim = [t] ->
  out_calls (calc st noise sim) = [] /\
  exists s, out_ret (calc st noise sim) =
            Ok (RetPair (zeros (length (robots sim)) (length (tasks sim))) s) /\
    (forall r, In r (robots sim) -> available r = true ->
               In (robot_id r, task_id t) (robot_assignments s)) /\
    (forall rid tid, In (rid, tid) (robot_assignments s) ->
       tid = task_id t /\
       exists r, In r (robots sim) /\ available r = true /\ robot_id r = rid).
Proof.
  intros H. rewrite (endgame_outcome tfv rfv tm build slv fr fo st noise sim t H).
  simpl. split; [reflexivity|].
  eexists. split; [reflexivity|]. simpl. split.
  - intros r Hr Ha. apply assign_all_new. apply filter_In. auto.
  - intros rid tid Hin.
    destruct (assign_all_inv _ _ _ _ _ Hin) as [[]|[-> [r [Hr <-]]]].
    apply filter_In in Hr as [Hr Ha]. split; [reflexivity|]. exists r. auto.
Qed.

(** C2: [calculate_robot_assignment] leaves the snapshot unchanged except
    on the end-game path, where it links every available robot to the
    remaining task ([robot.current_task]) before the schedule is
    committed; ids and availability are untouched. *)
Theorem decision_point_frame st noise sim :
  out_sim (calc st noise sim) =
  match pending_incomplete sim with
  | [t] => mkSim (map (assign_current_task (task_id t)) (robots sim)) (tasks sim)
             (task_adjacency sim)
  | _ => sim
  end /\
  forall tid r,
    robot_id (assign_current_task tid r) = robot_id r /\
    available (assign_current_task tid r) = available r /\
    current_task (assign_current_task tid r) =
      (if available r then Some tid else current_task r).
Proof.
  split.
  - destruct (pending_incomplete sim) as [|t [|t' l]] eqn:Hp.
    + apply (proj1 (general_outcome tfv rfv tm build slv fr fo st noise sim
               (not_singleton_general sim ltac:(rewrite Hp; exact I)))).
    + rewrite (endgame_outcome tfv rfv tm build slv fr fo st noise sim t Hp).
      reflexivity.
    + apply (proj1 (general_outcome tfv rfv tm build slv fr fo st noise sim
               (not_singleton_general sim ltac:(rewrite Hp; exact I)))).
  - intros tid r. unfold assign_current_task.
    destruct (available r) eqn:Ha; simpl; auto.
Qed.

(** C4: a Sadcher scheduler answers with a pair (reward tensor, schedule),
    not a schedule alone, and raises only off the end-game path.  The
    driver's [isinstance] test sends both Sadcher variants made by
    [create_scheduler] to the branch that unpacks the pair, which hands the
    schedule on; the greedy and random schedulers go to the branch that
    hands the answer on as it is, which for a pair would be the pair
    itself. *)
Theorem calculate_robot_assignment_returns_pair st noise sim :
  match out_ret (calc st noise sim) with
  | Ok ret =>
      exists r s, ret = RetPair r s /\
        Benchmark.driver_handoff true ret = Ok (Some r, RetSchedule s) /\
        Benchmark.driver_handoff false ret = Ok (None, RetPair r s)
  | Raise _ => forall t, pending_incomplete sim <> [t]
  end /\
  (forall (RLState : Type) torch_load msd rl rl_is_sadcher name ck sd sch,
     Init.create_scheduler torch_load msd RLState rl name ck sd = Ok sch ->
     (name = "sadcher"%string \/ name = "stochastic_IL_sadcher"%string) ->
     Benchmark.is_sadcher_instance rl_is_sadcher sch = true) /\
  (forall (RLState : Type) torch_load msd rl rl_is_sadcher name ck sd sch,
     Init.create_scheduler torch_load msd RLState rl name ck sd = Ok sch ->
     (name = "greedy"%string \/ name = "random_bipartite"%string) ->
     Benchmark.is_sadcher_instance rl_is_sadcher sch = false).
Proof.
  split; [|split].
  - destruct (pending_incomplete sim) as [|t [|t' l]] eqn:Hp.
    2:{ rewrite (endgame_outcome tfv rfv tm build slv fr fo st noise sim t Hp).
        simpl. do 2 eexists. split; [reflexivity|]. split; reflexivity. }
    all: assert (Hn : forall t, pending_incomplete sim <> [t])
           by (intros t0; rewrite Hp; congruence);
         destruct (general_outcome tfv rfv tm build slv fr fo st noise sim Hn)
           as (_ & _ & [(e & He & _)|(sampled & sch & _ & _ & Hr & _)]);
         [rewrite He; intros t0; congruence
         | rewrite Hr; do 2 eexists; split; [reflexivity|]; split; reflexivity].
  - intros RLState torch_load msd rl rls name ck sd sch H [-> | ->];
      unfold Init.create_scheduler in H; simpl in H;
      destruct (Init.load_model_weights torch_load msd ck); try discriminate;
      injection H as <-; reflexivity.
  - intros RLState torch_load msd rl rls name ck sd sch H [-> | ->];
      unfold Init.create_scheduler in H; simpl in H;
      injection H as <-; reflexivity.
Qed.

(** C5: every tensor handed to the matcher has the sentinel reward in its
    first and last column and entries at or above [1e-6] in between, for
    both variants and every spread and draw. *)
Theorem matcher_rewards_above_floor st noise sim m :
  In (CallSolve m) (out_calls (calc st noise sim)) ->
  forall row, In row m ->
  exists inner, row = sentinel_reward :: inner ++ [sentinel_reward] /\
                forall x, In x inner -> eps <= x.
Proof.
  intros Hin row Hrow.
  destruct (pending_incomplete sim) as [|t [|t' l]] eqn:Hp.
  2:{ rewrite (endgame_outcome tfv rfv tm build slv fr fo st noise sim t Hp) in Hin.
      destruct Hin. }
  all: assert (Hn : forall t, pending_incomplete sim <> [t])
         by (apply not_singleton_general; rewrite Hp; exact I);
       destruct (general_outcome tfv rfv tm build slv fr fo st noise sim Hn)
         as (_ & _ & [(e & _ & Hno)|(sampled & sch & Hs & _ & _ & Hm)]);
       [exfalso; exact (Hno m Hin)|];
       rewrite (Hm m Hin) in Hrow;
       destruct (In_cat_rows _ _ _ _ Hrow) as (x & y & z & Hx & Hy & Hz & ->);
       apply In_column in Hx, Hz; subst x z;
       exists y; split; [reflexivity|];
       intros q Hq; exact (sample_rewards_ge _ _ _ _ _ _ Hs Hy Hq).
Qed.

(** C6: off the end-game path the returned tensor has the sentinel reward
    [-1000] in its first and last column for every robot; on the end-game
    path it is all zeros. *)
Theorem returned_matrix_sentinel_columns st noise sim r s :
  out_ret (calc st noise sim) = Ok (RetPair r s) ->
  match pending_incomplete sim with
  | [_] => r = zeros (length (robots sim)) (length (tasks sim))
  | _ => length r = length (robots sim) /\
         forall row, In row r ->
         exists inner, row = sentinel_reward :: inner ++ [sentinel_reward]
  end.
Proof.
  intros Hr.
  destruct (pending_incomplete sim) as [|t [|t' l]] eqn:Hp.
  2:{ rewrite (endgame_outcome tfv rfv tm build slv fr fo st noise sim t Hp) in Hr.
      simpl in Hr. congruence. }
  all: assert (Hn : forall t, pending_incomplete sim <> [t])
         by (apply not_singleton_general; rewrite Hp; exact I);
       destruct (general_outcome tfv rfv tm build slv fr fo st noise sim Hn)
         as (_ & _ & [(e & He & _)|(sampled & sch & _ & Hl & Hr' & _)]);
       [congruence|];
       rewrite Hr' in Hr; injection Hr as <- _;
       (split;
        [rewrite cat_rows_length; unfold column; rewrite ?repeat_length; lia|]);
       intros row Hrow;
       destruct (In_cat_rows _ _ _ _ Hrow) as (x & y & z & Hx & Hy & Hz & ->);
       apply In_column in Hx, Hz; subst x z; exists y; reflexivity.
Qed.

(** C7: task features are taken from [sim.tasks[1:-2]], i.e. every task but
    the first and the last two, robot features from every robot; off the
    end-game path they are the network's first call. *)
Theorem features_skip_first_and_last_two st noise sim :
  extract st sim =
  (map (tfv (location_normalization st) (duration_normalization st))
     (firstn (length (tasks sim) - 3) (skipn 1 (tasks sim))),
   map (rfv (location_normalization st) (duration_normalization st)) (robots sim)) /\
  match pending_incomplete sim with
  | [_] => out_calls (calc st noise sim) = []
  | _ => exists rest, out_calls (calc st noise sim) =
           CallOracle (snd (extract st sim)) (fst (extract st sim)) :: rest
  end.
Proof.
  split.
  - unfold extract_task_robot_features. rewrite py_slice_1_m2. reflexivity.
  - destruct (pending_incomplete sim) as [|t [|t' l]] eqn:Hp.
    2:{ rewrite (endgame_outcome tfv rfv tm build slv fr fo st noise sim t Hp).
        reflexivity. }
    all: assert (Hn : forall t, pending_incomplete sim <> [t])
           by (apply not_singleton_general; rewrite Hp; exact I);
         apply (general_outcome tfv rfv tm build slv fr fo st noise sim Hn).
Qed.

End Decision.

(** ** Zero spread *)

Lemma zero_spread_row i k (noise : nat -> nat -> Q) (row : list Q) :
  Forall (fun x => eps <= x) row ->
  Forall2 Qeq (map (clamp_min eps)
                 (map (fun '(j, x) => x + 0 * noise i j) (combine (seq k (length row)) row)))
    row.
Proof.
  revert k. induction row as [|x row IH]; intros k Hf; simpl; [constructor|].
  inversion Hf as [|? ? Hx Hrest]; subst.
  constructor; [|apply IH; exact Hrest].
  assert (Hq : x + 0 * noise i k == x) by ring.
  unfold clamp_min, Qltb.
  assert (Hle : Qle_bool eps (x + 0 * noise i k) = true).
  { apply Qle_bool_iff. rewrite Hq. exact Hx. }
  rewrite Hle. simpl. exact Hq.
Qed.

Lemma zero_spread_matrix i (noise : nat -> nat -> Q) (m : matrix) :
  Forall (Forall (fun x => eps <= x)) m ->
  Forall2 (Forall2 Qeq)
    (clamp_matrix eps
       (map (fun '(i, row) =>
               map (fun '(j, x) => x + 0 * noise i j) (combine (seq 0 (length row)) row))
            (combine (seq i (length m)) m)))
    m.
Proof.
  revert i. induction m as [|row m IH]; intros i Hf; simpl; [constructor|].
  inversion Hf as [|? ? Hrow Hrest]; subst.
  constructor; [apply zero_spread_row; exact Hrow | apply IH; exact Hrest].
Qed.

(** C9: on a reward tensor already at or above the floor, the stochastic
    variant with spread [0] returns the tensor (numerically) unchanged,
    whatever the draw, and the deterministic variant returns it as is. *)
Theorem stochastic_zero_spread_reproduces noise (m : matrix) :
  Forall (Forall (fun x => eps <= x)) m ->
  sample_rewards Deterministic noise m = Ok m /\
  exists m', sample_rewards (Stochastic 0) noise m = Ok m' /\
             Forall2 (Forall2 Qeq) m' m.
Proof.
  intros Hf. split; [reflexivity|].
  eexists. split; [reflexivity|].
  apply zero_spread_matrix. exact Hf.
Qed.

End Claims.

(** * The assignment filters are idempotent *)

Module FilterFacts.
Import Sadcher Filters.

Lemma filter_filter {A : Type} (f g : A -> bool) (l : list A) :
  filter f (filter g l) = filter (fun x => g x && f x) l.
Proof.
  induction l as [|x l IH]; simpl; [reflexivity|].
  destruct (g x); simpl; [destruct (f x); simpl; rewrite IH; reflexivity | exact IH].
Qed.

Lemma filter_all {A : Type} (f : A -> bool) (l : list A) :
  (forall x, In x l -> f x = true) -> filter f l = l.
Proof.
  induction l as [|x l IH]; simpl; intros H; [reflexivity|].
  rewrite (H x (or_introl eq_refl)). f_equal. apply IH. auto.
Qed.

Lemma count_filter_le {A : Type} (f q : A -> bool) (l : list A) :
  (length (filter f (filter q l)) <= length (filter f l))%nat.
Proof.
  induction l as [|x l IH]; simpl; [lia|].
  destruct (q x), (f x) eqn:E; simpl; try rewrite E; simpl; lia.
Qed.

Lemma existsb_filter {A : Type} (f q : A -> bool) (l : list A) :
  existsb f (filter q l) = true -> existsb f l = true.
Proof.
  induction l as [|x l IH]; simpl; [discriminate|].
  destruct (q x); simpl; intros H;
    [apply orb_true_iff in H as [H|H]; [now rewrite H | rewrite IH; auto with bool]|].
  rewrite IH; auto with bool.
Qed.

(** Keeping a sub-selection can only help an entry pass these tests. *)
Lemma unbeaten_antitone b q l e :
  unbeaten b l e = true -> unbeaten b (filter q l) e = true.
Proof.
  unfold unbeaten. destruct (selected e); simpl; [|auto].
  intros H. apply negb_true_iff in H. apply negb_true_iff.
  destruct (existsb _ (filter q l)) eqn:E; [|reflexivity].
  apply existsb_filter in E. congruence.
Qed.

Lemma within_capacity_antitone capacity reward q l e :
  within_capacity reward capacity l e = true ->
  within_capacity reward capacity (filter q l) e = true.
Proof.
  unfold within_capacity. destruct (selected e); simpl; [|auto].
  rewrite !Nat.ltb_lt. pose proof (count_filter_le
    (fun e' => selected e' && beats_on_task reward e' e) q l). lia.
Qed.

Lemma unbeaten_stable b (l : list entry) :
  filter (unbeaten b (filter (unbeaten b l) l)) (filter (unbeaten b l) l)
  = filter (unbeaten b l) l.
Proof.
  apply filter_all. intros x Hx. apply unbeaten_antitone.
  apply filter_In in Hx. tauto.
Qed.

Section Idempotence.
Variable sim : Sim.
Variable reward : nat -> nat -> Q.
Variable capacity : nat -> nat.

(** C10: each of the two filters, applied twice, gives what it gives once. *)
Theorem filters_idempotent (sol : solution) :
  filter_redundant_assignments sim (filter_redundant_assignments sim sol)
  = filter_redundant_assignments sim sol /\
  filter_overassignments reward capacity (filter_overassignments reward capacity sol)
  = filter_overassignments reward capacity sol.
Proof.
  split.
  - unfold filter_redundant_assignments at 1 2.
    set (L := filter (not_committed sim) sol).
    set (y := filter (unbeaten lower_robot_same_task L) L).
    assert (Hy : filter (not_committed sim) y = y).
    { apply filter_all. intros x Hx. unfold y, L in Hx.
      apply filter_In in Hx as [Hx _]. apply filter_In in Hx. tauto. }
    rewrite Hy. unfold y. apply unbeaten_stable.
  - unfold filter_overassignments at 1 2.
    set (A := filter (within_capacity reward capacity sol) sol).
    set (B := filter (unbeaten (beats_on_robot reward) A) A).
    assert (HB : filter (within_capacity reward capacity B) B = B).
    { apply filter_all. intros x Hx.
      assert (Heq : B = filter (fun z => within_capacity reward capacity sol z
                                         && unbeaten (beats_on_robot reward) A z) sol)
        by (unfold B, A; apply filter_filter).
      rewrite Heq. apply within_capacity_antitone.
      unfold B, A in Hx. apply filter_In in Hx as [Hx _]. apply filter_In in Hx. tauto. }
    rewrite HB. unfold B. apply unbeaten_stable.
Qed.

End Idempotence.
End FilterFacts.

(** * Scheduler construction *)

Module InitFacts.
Import Sadcher Init.
#[local] Open Scope string_scope.

Lemma dict_set_values {K V : Type} (eqb : K -> K -> bool) (d : list (K * V)) k v k' w :
  In (k', w) (dict_set eqb d k v) -> w = v \/ In (k', w) d.
Proof.
  induction d as [|[k0 v0] d IH]; simpl.
  - intros [H|[]]. injection H as _ <-. auto.
  - destruct (eqb k k0).
    + intros [H|H]; [injection H as _ <-; auto | auto].
    + intros [H|H]; [auto|]. destruct (IH H); auto.
Qed.

Definition is_tensor (e : string * CkObj) : Prop :=
  exists sz, snd e = CTensor sz.

Lemma strip_keys_tensors (items : list (string * CkObj)) :
  Forall is_tensor items -> Forall is_tensor (strip_keys items).
Proof.
  unfold strip_keys. intros Hf.
  assert (Hgen : forall d, Forall is_tensor d ->
            Forall is_tensor (fold_left (fun d '(k, v) =>
                                dict_set String.eqb d (strip_prefix k) v) items d)).
  { induction Hf as [|[k v] items Hkv Hrest IH]; simpl; intros d Hd; [exact Hd|].
    apply IH. apply Forall_forall. intros [k' w] Hin.
    destruct (dict_set_values _ _ _ _ _ _ Hin) as [->|Hin'].
    - exact Hkv.
    - rewrite Forall_forall in Hd. exact (Hd _ Hin'). }
  apply Hgen. constructor.
Qed.

Lemma filter_checkpoint_tensors current (items : list (string * CkObj)) :
  Forall is_tensor items -> exists r, filter_checkpoint current items = Ok r.
Proof.
  induction 1 as [|[k v] items [sz Hv] Hrest [r IH]]; simpl; [eauto|].
  simpl in Hv. subst v. rewrite IH. unfold keep_entry.
  destruct (lookup_str k current); [destruct (list_nat_eqb _ _)|]; eauto.
Qed.

Definition sadcher_family (name : string) : Prop :=
  name = "sadcher" \/ name = "stochastic_IL_sadcher".

Section Construction.
Variable torch_load : string -> result CkObj.
Variable model_state_dict : list (string * list nat).
Variable RLState : Type.
Variable RLSadcherScheduler : CkPath -> result RLState.

Local Abbreviation create :=
  (create_scheduler torch_load model_state_dict RLState RLSadcherScheduler).

(** C8: an unknown name raises [ValueError]; a Sadcher variant raises when
    the checkpoint path is [None] or not a string, or when [torch.load]
    fails; but a loadable flat state dict of tensors with neither a
    ["state_dict"] nor a ["policy"] key is always accepted, whatever its
    other keys and sizes: entries that do not fit the network are skipped,
    not reported as an error.  A checkpoint that is a tensor, or whose
    ["state_dict"] entry (or, without one, whose ["policy"] entry) is a
    tensor, raises [AttributeError] during construction. *)
Theorem create_scheduler_configuration_errors :
  (forall name ck sd,
     existsb (String.eqb name)
       ["greedy"; "random_bipartite"; "sadcher"; "rl_sadcher";
        "rl_sadcher_sampling"; "stochastic_IL_sadcher"] = false ->
     create name ck sd = Raise ValueError) /\
  (forall name sd, sadcher_family name ->
     create name CkNone sd = Raise ValueError /\ create name CkOther sd = Raise ValueError) /\
  (forall name sd p e, sadcher_family name -> torch_load p = Raise e ->
     create name (CkStr p) sd = Raise e) /\
  (forall name sd p items, sadcher_family name ->
     torch_load p = Ok (CDict items) ->
     lookup_str "state_dict" items = None -> lookup_str "policy" items = None ->
     Forall is_tensor items ->
     exists sch, create name (CkStr p) sd = Ok sch) /\
  (forall name sd p sz, sadcher_family name ->
     torch_load p = Ok (CTensor sz) ->
     create name (CkStr p) sd = Raise AttributeError) /\
  (forall name sd p items sz, sadcher_family name ->
     torch_load p = Ok (CDict items) ->
     lookup_str "state_dict" items = Some (CTensor sz) ->
     create name (CkStr p) sd = Raise AttributeError) /\
  (forall name sd p items sz, sadcher_family name ->
     torch_load p = Ok (CDict items) ->
     lookup_str "state_dict" items = None -> lookup_str "policy" items = Some (CTensor sz) ->
     create name (CkStr p) sd = Raise AttributeError).
Proof.
  split; [|split; [|split; [|split; [|split; [|split]]]]].
  - intros name ck sd H. unfold create_scheduler. simpl in H.
    destruct (String.eqb name "greedy"); [discriminate|].
    destruct (String.eqb name "random_bipartite"); [discriminate|].
    destruct (String.eqb name "sadcher"); [discriminate|].
    destruct (String.eqb name "rl_sadcher"); [discriminate|].
    destruct (String.eqb name "rl_sadcher_sampling"); [discriminate|].
    destruct (String.eqb name "stochastic_IL_sadcher"); [discriminate|].
    reflexivity.
  - intros name sd [->| ->]; split; reflexivity.
  - intros name sd p e [->| ->] Hl; unfold create_scheduler; simpl;
      unfold load_model_weights; rewrite Hl; reflexivity.
  - intros name sd p items Hn Hl Hs Hp Hf.
    destruct (filter_checkpoint_tensors model_state_dict (strip_keys items)
                (strip_keys_tensors items Hf)) as [r Hr].
    destruct Hn as [->| ->]; unfold create_scheduler; simpl;
      unfold load_model_weights; rewrite Hl; simpl; rewrite Hs; simpl; rewrite Hp;
      rewrite Hr; eauto.
  - intros name sd p sz [->| ->] Hl; unfold create_scheduler; simpl;
      unfold load_model_weights; rewrite Hl; reflexivity.
  - intros name sd p items sz [->| ->] Hl Hs; unfold create_scheduler; simpl;
      unfold load_model_weights; rewrite Hl; simpl; rewrite Hs; reflexivity.
  - intros name sd p items sz [->| ->] Hl Hs Hp; unfold create_scheduler; simpl;
      unfold load_model_weights; rewrite Hl; simpl; rewrite Hs; simpl; rewrite Hp;
      reflexivity.
Qed.

End Construction.
End InitFacts.

(** * The benchmark run *)

Module BenchmarkFacts.
Import Sadcher Init Benchmark.

Section Run.
Variable SimObj : Type.
Variable Simulation : ProblemInstance -> string -> SimObj.
Variable sim_done : SimObj -> bool.
Variable timestep : SimObj -> Q.
Variable makespan : SimObj -> Q.
Variable step_until_next_decision_point : SimObj -> SimObj.
Variable torch_load : string -> result CkObj.
Variable model_state_dict : list (string * list nat).
Variable RLState : Type.
Variable RLSadcherScheduler : CkPath -> result RLState.
Variable decision_point : Scheduler RLState -> SimObj -> Scheduler RLState * SimObj.

Local Abbreviation loop :=
  (sim_loop SimObj sim_done timestep makespan step_until_next_decision_point RLState
     decision_point).

(** The loop itself: a run that ends infeasible reports exactly the bound,
    and a step past the bound ends the run as infeasible. *)
Lemma sim_loop_infeasible_capped fuel worst sch sim m :
  loop fuel worst sch sim = Some (m, false) -> m = worst.
Proof.
  revert sch sim. induction fuel as [|n IH]; intros sch sim; simpl; [discriminate|].
  destruct (sim_done sim); [congruence|].
  destruct (decision_point sch sim) as [sch' sim1].
  destruct (Qltb worst _); [congruence|]. apply IH.
Qed.

Lemma sim_loop_over_bound n worst sch sim :
  sim_done sim = false ->
  Qltb worst (timestep (step_until_next_decision_point (snd (decision_point sch sim))))
  = true ->
  loop (Datatypes.S n) worst sch sim = Some (worst, false).
Proof.
  intros Hd Hb. simpl. rewrite Hd.
  destruct (decision_point sch sim) as [sch' sim1]. simpl in Hb. rewrite Hb.
  reflexivity.
Qed.

(** C3: [run_one_simulation] calls [create_scheduler] with a keyword,
    [model_name], that [create_scheduler] does not take, so every run whose
    bound is computable raises [TypeError] before the loop starts. *)
Theorem run_one_simulation_raises_TypeError fuel pi name ck :
  match worst_case_makespan pi with
  | Ok _ =>
      run_one_simulation SimObj Simulation sim_done timestep makespan
        step_until_next_decision_point torch_load model_state_dict RLState
        RLSadcherScheduler decision_point fuel pi name ck = Raise TypeError
  | Raise e =>
      run_one_simulation SimObj Simulation sim_done timestep makespan
        step_until_next_decision_point torch_load model_state_dict RLState
        RLSadcherScheduler decision_point fuel pi name ck = Raise e
  end.
Proof.
  unfold run_one_simulation. destruct (worst_case_makespan pi); reflexivity.
Qed.

End Run.
End BenchmarkFacts.

(** * Concrete runs *)

Module Evidence.
Import Sadcher.

(** ** Instances of the theorems *)

Lemma endgame_assigns_available_robots_witness :
  pending_incomplete Sample.endgame_sim = [Sample.end_task] /\
  out_calls (Sample.calc Deterministic Sample.endgame_sim) = [] /\
  exists s, out_ret (Sample.calc Deterministic Sample.endgame_sim) =
            Ok (RetPair (zeros 2 3) s) /\
    (forall r, In r (robots Sample.endgame_sim) -> available r = true ->
               In (robot_id r, task_id Sample.end_task) (robot_assignments s)) /\
    (forall rid tid, In (rid, tid) (robot_assignments s) ->
       tid = task_id Sample.end_task /\
       exists r, In r (robots Sample.endgame_sim) /\ available r = true /\
                 robot_id r = rid).
Proof.
  split; [reflexivity|].
  exact (Claims.endgame_assigns_available_robots Sample.tfv Sample.rfv Sample.oracle
           Sample.build Sample.solve Sample.keep Sample.keep (Sample.st Deterministic)
           Sample.noise Sample.endgame_sim Sample.end_task eq_refl).
Defined.

Lemma matcher_rewards_above_floor_witness :
  In (CallSolve [[-1000; 4 # 4; 4 # 4; -1000]])
     (out_calls (Sample.calc (Stochastic (1 # 2)) Sample.running_sim)) /\
  forall row, In row [[-1000; 4 # 4; 4 # 4; -1000]] ->
  exists inner, row = sentinel_reward :: inner ++ [sentinel_reward] /\
                forall x, In x inner -> eps <= x.
Proof.
  assert (H : In (CallSolve [[-1000; 4 # 4; 4 # 4; -1000]])
                (out_calls (Sample.calc (Stochastic (1 # 2)) Sample.running_sim)))
    by (vm_compute; right; right; left; reflexivity).
  split; [exact H|].
  exact (Claims.matcher_rewards_above_floor Sample.tfv Sample.rfv Sample.oracle
           Sample.build Sample.solve Sample.keep Sample.keep
           (Sample.st (Stochastic (1 # 2))) Sample.noise Sample.running_sim _ H).
Defined.

Lemma returned_matrix_sentinel_columns_witness :
  out_ret (Sample.calc Deterministic Sample.running_sim) =
    Ok (RetPair [[-1000; 1 # 2; 1 # 2; -1000]] (mkSchedule [(0%nat, 1%nat)])) /\
  length [[-1000; 1 # 2; 1 # 2; -1000]] = length (robots Sample.running_sim) /\
  forall row, In row [[-1000; 1 # 2; 1 # 2; -1000]] ->
  exists inner, row = sentinel_reward :: inner ++ [sentinel_reward].
Proof.
  assert (H : out_ret (Sample.calc Deterministic Sample.running_sim) =
              Ok (RetPair [[-1000; 1 # 2; 1 # 2; -1000]] (mkSchedule [(0%nat, 1%nat)])))
    by (vm_compute; reflexivity).
  split; [exact H|].
  exact (Claims.returned_matrix_sentinel_columns Sample.tfv Sample.rfv Sample.oracle
           Sample.build Sample.solve Sample.keep Sample.keep (Sample.st Deterministic)
           Sample.noise Sample.running_sim _ _ H).
Defined.

Lemma stochastic_zero_spread_reproduces_witness :
  Forall (Forall (fun x => eps <= x)) [[1; 2]] /\
  sample_rewards Deterministic Sample.noise [[1; 2]] = Ok [[1; 2]] /\
  exists m', sample_rewards (Stochastic 0) Sample.noise [[1; 2]] = Ok m' /\
             Forall2 (Forall2 Qeq) m' [[1; 2]].
Proof.
  assert (H : Forall (Forall (fun x => eps <= x)) [[1; 2]])
    by (repeat constructor; apply Qle_bool_iff; vm_compute; reflexivity).
  split; [exact H|].
  exact (Claims.stochastic_zero_spread_reproduces Sample.noise [[1; 2]] H).
Defined.

(** ** Counterexamples *)

(** One task is incomplete, but it is in progress, not PENDING: the
    general path runs and the network is called. *)
Lemma endgame_shortcut_requires_pending :
  length (filter incomplete (tasks Sample.end_active_sim)) = 1%nat /\
  out_calls (Sample.calc Deterministic Sample.end_active_sim) <> [].
Proof. split; [reflexivity|]. vm_compute. discriminate. Qed.

(** The end-game path links robot 0 to the end task inside
    [calculate_robot_assignment]. *)
Lemma endgame_mutates_current_task :
  out_sim (Sample.calc Deterministic Sample.endgame_sim) <> Sample.endgame_sim.
Proof. vm_compute. congruence. Qed.

(** A Sadcher scheduler returns a pair, not a schedule. *)
Lemma sadcher_returns_pair_not_schedule :
  ~ exists s, out_ret (Sample.calc Deterministic Sample.endgame_sim) = Ok (RetSchedule s).
Proof. intros [s H]. vm_compute in H. discriminate. Qed.

(** The end-game tensor starts every row with [0], not a negative value. *)
Lemma endgame_matrix_first_column_zero :
  ~ (forall r s, out_ret (Sample.calc Deterministic Sample.endgame_sim) = Ok (RetPair r s) ->
       forall row, In row r -> exists x, hd_error row = Some x /\ x < 0).
Proof.
  intros H.
  assert (Hr : out_ret (Sample.calc Deterministic Sample.endgame_sim) =
               Ok (RetPair [[0; 0; 0]; [0; 0; 0]] (mkSchedule [(0%nat, 2%nat)])))
    by (vm_compute; reflexivity).
  destruct (H _ _ Hr [0; 0; 0] (or_introl eq_refl)) as (x & Hx & Hlt).
  injection Hx as <-. exact (Qlt_irrefl 0 Hlt).
Qed.

(** With tasks [start; 1; 2; end] the network sees task 1 only, not the
    real tasks 1 and 2. *)
Lemma features_omit_a_non_sentinel_task :
  fst (Sample.extract Sample.running_sim) <>
  map (Sample.tfv 100 100) (removelast (tl (tasks Sample.running_sim))).
Proof. vm_compute. discriminate. Qed.

End Evidence.

Module InitEvidence.
Import Sadcher Init.
#[local] Open Scope string_scope.

(** A checkpoint none of whose entries belongs to the network is accepted:
    construction succeeds with no layer loaded. *)
Lemma create_scheduler_accepts_mismatched_checkpoint :
  create_scheduler (fun _ => Ok (CDict [("decoder.weight", CTensor [3%nat])]))
    [("encoder.weight", [2%nat; 2%nat])] unit (fun _ => Raise ValueError)
    "sadcher" (CkStr "model.pt") 1 = Ok (SadcherSch unit Deterministic []).
Proof. vm_compute. reflexivity. Qed.

End InitEvidence.

(** * Further properties of the scheduler *)

Module SchedulerExtras.
Import Sadcher SadcherFacts.

(** ** The schedule dict *)

Lemma dict_set_keys (d : list (nat * nat)) k v x :
  In x (map fst (dict_set Nat.eqb d k v)) -> x = k \/ In x (map fst d).
Proof.
  intros Hx. apply in_map_iff in Hx as [[k' w] [<- Hin]].
  destruct (dict_set_In_inv _ _ _ _ _ Hin) as [[-> _]|H]; [auto|].
  right. apply in_map_iff. exists (k', w). auto.
Qed.

Lemma dict_set_keeps_keys (d : list (nat * nat)) k v x :
  In x (map fst d) -> In x (map fst (dict_set Nat.eqb d k v)).
Proof.
  induction d as [|[k0 v0] d IH]; simpl; [tauto|].
  destruct (Nat.eqb k k0); simpl; intros [H|H]; auto.
Qed.

Lemma dict_set_NoDup (d : list (nat * nat)) k v :
  NoDup (map fst d) -> NoDup (map fst (dict_set Nat.eqb d k v)).
Proof.
  induction d as [|[k0 v0] d IH]; simpl; intros Hd.
  - repeat constructor. tauto.
  - inversion Hd as [|? ? Hnin Hd']; subst.
    destruct (Nat.eqb k k0) eqn:E; simpl; constructor; auto.
    intros Hin. destruct (dict_set_keys _ _ _ _ Hin) as [->|H]; [|tauto].
    rewrite Nat.eqb_refl in E. discriminate.
Qed.

Definition collect_step (d : list (nat * nat)) (e : (nat * nat) * Q) :=
  let '((r, t), val) := e in if Qeq_bool val 1 then dict_set Nat.eqb d r t else d.

Lemma collect_general (sol : solution) (d : list (nat * nat)) :
  NoDup (map fst d) ->
  NoDup (map fst (fold_left collect_step sol d)) /\
  (forall r t, In (r, t) (fold_left collect_step sol d) ->
     In (r, t) d \/ exists v, In ((r, t), v) sol /\ Qeq_bool v 1 = true) /\
  (forall r, In r (map fst d) -> In r (map fst (fold_left collect_step sol d))) /\
  (forall r t v, In ((r, t), v) sol -> Qeq_bool v 1 = true ->
     In r (map fst (fold_left collect_step sol d))).
Proof.
  revert d. induction sol as [|[[r t] v] sol IH]; intros d Hd; simpl.
  - repeat split; auto. intros ? ? ? [].
  - set (d' := collect_step d ((r, t), v)).
    assert (Hd' : NoDup (map fst d')).
    { unfold d', collect_step. destruct (Qeq_bool v 1); auto. apply dict_set_NoDup. auto. }
    destruct (IH d' Hd') as (H1 & H2 & H3 & H4).
    repeat split; auto.
    + intros r0 t0 Hin. destruct (H2 _ _ Hin) as [Hin'|(v0 & Hv0 & Hs)].
      * unfold d', collect_step in Hin'. destruct (Qeq_bool v 1) eqn:Ev.
        -- destruct (dict_set_In_inv _ _ _ _ _ Hin') as [[-> ->]|?]; [|auto].
           right. exists v. auto.
        -- auto.
      * right. exists v0. auto.
    + intros r0 Hr0. apply H3. unfold d', collect_step.
      destruct (Qeq_bool v 1); auto. apply dict_set_keeps_keys. auto.
    + intros r0 t0 v0 [Heq|Hin] Hs.
      * injection Heq as -> -> ->. apply H3. unfold d', collect_step. rewrite Hs.
        apply in_map_iff. exists (r0, t0). split; [reflexivity|]. apply dict_set_In_new.
      * exact (H4 _ _ _ Hin Hs).
Qed.

(** X1: the dict comprehension [{robot: task for (robot, task), val in
    filtered_solution.items() if val == 1}] maps each robot to one task;
    every assignment comes from an entry of value [1], and every robot with
    such an entry is assigned. *)
Theorem collect_assignments_spec (sol : solution) :
  NoDup (map fst (collect_assignments sol)) /\
  (forall r t, In (r, t) (collect_assignments sol) ->
     exists v, In ((r, t), v) sol /\ Qeq_bool v 1 = true) /\
  (forall r t v, In ((r, t), v) sol -> Qeq_bool v 1 = true ->
     exists t', In (r, t') (collect_assignments sol)).
Proof.
  assert (Heq : collect_assignments sol = fold_left collect_step sol []) by reflexivity.
  rewrite Heq.
  destruct (collect_general sol [] (NoDup_nil _)) as (H1 & H2 & _ & H4).
  repeat split; auto.
  - intros r t Hin. destruct (H2 _ _ Hin) as [[]|H]; exact H.
  - intros r t v Hin Hs. pose proof (H4 _ _ _ Hin Hs) as H5.
    apply in_map_iff in H5 as [[r' t'] [Hr Hin']].
    simpl in Hr. subst. eauto.
Qed.

(** ** Decision points, opened up *)

Section Calc.
Context {Feat : Type} (tfv : Q -> Q -> Task -> Feat) (rfv : Q -> Q -> Robot -> Feat)
  (tm : list Feat -> list Feat -> list (list Q) -> matrix)
  {Matcher : Type} (build : Sim -> Matcher) (slv : Matcher -> matrix -> Matcher * solution)
  (fr fo : solution -> Sim -> solution).

Local Abbreviation calc := (calculate_robot_assignment Feat tfv rfv tm Matcher build slv fr fo).

Ltac crunch_calc :=
  repeat (simpl; match goal with
  | |- context [match pending_incomplete ?s with _ => _ end] =>
      let E := fresh "Hp" in destruct (pending_incomplete s) as [|? [|? ?]] eqn:E
  | |- context [match extract_task_robot_features ?F ?a ?b ?M ?st ?s with _ => _ end] =>
      let E := fresh "Hx" in destruct (extract_task_robot_features F a b M st s) eqn:E
  | |- context [match sample_rewards ?a ?b ?c with _ => _ end] =>
      let E := fresh "Hs" in destruct (sample_rewards a b c) eqn:E
  | |- context [match cat3 ?a ?b ?c with _ => _ end] =>
      let E := fresh "Hc" in destruct (cat3 a b c) eqn:E
  | |- context [match debug_print ?a ?b ?c ?d ?e with _ => _ end] =>
      let E := fresh "Hd" in destruct (debug_print a b c d e) eqn:E
  | |- context [match bipartite_matcher ?st with _ => _ end] =>
      let E := fresh "Hm" in destruct (bipartite_matcher st) eqn:E
  | |- context [match slv ?m ?pr with _ => _ end] =>
      let E := fresh "Hv" in destruct (slv m pr) eqn:E
  end).

(** X3: the reward tensor returned with the schedule is the one the matcher
    solved, except on the end-game path, where nothing is called. *)
Theorem returned_matrix_is_matcher_input st noise sim r s :
  out_ret (calc st noise sim) = Ok (RetPair r s) ->
  (exists t, pending_incomplete sim = [t] /\ out_calls (calc st noise sim) = []) \/
  In (CallSolve r) (out_calls (calc st noise sim)).
Proof.
  destruct (pending_incomplete sim) as [|t [|t' l]] eqn:Hp0.
  2:{ intros _. left. exists t. split; [reflexivity|].
      rewrite (endgame_outcome tfv rfv tm build slv fr fo st noise sim t Hp0). reflexivity. }
  all: unfold calculate_robot_assignment; rewrite Hp0; crunch_calc; intros H;
       try discriminate; injection H as <- _; right; simpl;
       repeat (first [left; reflexivity | right]).
Qed.

Lemma Qltb_spec x y : Qltb x y = true <-> x < y.
Proof.
  unfold Qltb. rewrite negb_true_iff. split; intros H.
  - apply Qnot_le_lt. intros Hle. apply Qle_bool_iff in Hle. congruence.
  - destruct (Qle_bool y x) eqn:E; [|reflexivity].
    apply Qle_bool_iff in E. exfalso. exact (Qlt_not_le _ _ H E).
Qed.

Lemma noise_rows_shape (noise : nat -> nat -> Q) sd (m : matrix) k :
  map (@length Q)
    (map (fun '(i, row) =>
            map (fun '(j, x) => x + sd * noise i j) (combine (seq 0 (length row)) row))
         (combine (seq k (length m)) m))
  = map (@length Q) m.
Proof.
  revert k. induction m as [|row m IH]; intros k; simpl; [reflexivity|].
  rewrite IH. f_equal. rewrite length_map, length_combine, length_seq. lia.
Qed.

Lemma sample_rewards_cases v noise (m : matrix) :
  match sample_rewards v noise m with
  | Ok m' => map (@length Q) m' = map (@length Q) m
  | Raise e => e = RuntimeError /\ exists sd, v = Stochastic sd /\ sd < 0
  end.
Proof.
  destruct v as [|sd]; simpl; [reflexivity|].
  unfold torch_normal. destruct (Qltb sd 0) eqn:E; simpl.
  - split; [reflexivity|]. exists sd. split; [reflexivity|]. apply Qltb_spec. exact E.
  - unfold clamp_matrix. rewrite map_map.
    rewrite (map_ext (fun x => length (map (clamp_min eps) x)) (@length Q))
      by (intros a; apply length_map).
    apply noise_rows_shape.
Qed.

(** X5: [sample_rewards] keeps the tensor's shape; it raises only for the
    stochastic variant with a negative spread, and then [RuntimeError]. *)
Theorem sample_rewards_shape v noise (m : matrix) :
  match sample_rewards v noise m with
  | Ok m' => map (@length Q) m' = map (@length Q) m
  | Raise e => e = RuntimeError /\ exists sd, v = Stochastic sd /\ sd < 0
  end.
Proof. exact (sample_rewards_cases v noise m). Qed.

Lemma sample_rewards_ok_nonneg sd noise m m' :
  sample_rewards (Stochastic sd) noise m = Ok m' -> ~ sd < 0.
Proof.
  simpl. unfold torch_normal. destruct (Qltb sd 0) eqn:E; [discriminate|].
  intros _ Hlt. apply Qltb_spec in Hlt. congruence.
Qed.

Lemma cat3_eq a b c :
  length a = length b -> length b = length c -> cat3 a b c = Ok (cat_rows a b c).
Proof.
  intros H1 H2. unfold cat3. rewrite H1, H2, Nat.eqb_refl. reflexivity.
Qed.

Lemma cat3_mismatch a b c :
  length a <> length b -> cat3 a b c = Raise RuntimeError.
Proof.
  intros H. unfold cat3. apply Nat.eqb_neq in H. rewrite H. reflexivity.
Qed.

Lemma map_length_eq {A : Type} (l1 l2 : list (list A)) :
  map (@length A) l1 = map (@length A) l2 -> length l1 = length l2.
Proof.
  intros H. rewrite <- (length_map (@length A) l1), <- (length_map (@length A) l2).
  rewrite H. reflexivity.
Qed.

Local Abbreviation extract := (extract_task_robot_features Feat tfv rfv Matcher).

Lemma nth_error_cat_rows a b c i :
  nth_error (cat_rows a b c) i =
  match nth_error a i, nth_error b i, nth_error c i with
  | Some x, Some y, Some z => Some (x ++ y ++ z)
  | _, _, _ => None
  end.
Proof.
  revert b c i. induction a as [|x a IH]; intros b c i;
    destruct b as [|y b]; destruct c as [|z c]; destruct i as [|i]; simpl;
    try reflexivity; try apply IH;
    repeat match goal with |- context [match ?t with _ => _ end] =>
      destruct t; try reflexivity end.
Qed.

Lemma nth_error_repeat_lt {A : Type} (x : A) n i :
  (i < n)%nat -> nth_error (repeat x n) i = Some x.
Proof.
  revert i. induction n as [|n IH]; intros [|i] Hi; simpl; try lia; auto.
  apply IH. lia.
Qed.

Lemma forallb_false {A : Type} (f : A -> bool) l :
  forallb f l = false -> exists x, In x l /\ f x = false.
Proof.
  induction l as [|a l IH]; simpl; [discriminate|].
  destruct (f a) eqn:E; simpl; intros H.
  - destruct (IH H) as (x & Hx & Hf). eauto.
  - eauto.
Qed.

(** The reads of the debug block stay in range exactly when every row of
    the network output, framed by the two sentinel columns, is as wide as
    the snapshot's task list. *)
Lemma debug_reads_in_range n nt s (raw sampled : matrix) :
  length raw = n -> map (@length Q) sampled = map (@length Q) raw ->
  forallb (fun i => forallb (fun j =>
             in_bounds (cat_rows (column n s) raw (column n s)) i j &&
             in_bounds (cat_rows (column n s) sampled (column n s)) i j)
           (seq 0 nt)) (seq 0 n) = true
  <-> forall row, In row raw -> (nt <= length row + 2)%nat.
Proof.
  intros Hn Hsh.
  assert (Hrow : forall i, (i < n)%nat -> exists row y,
             nth_error raw i = Some row /\ nth_error sampled i = Some y /\
             length y = length row).
  { intros i Hi. destruct (nth_error raw i) as [row|] eqn:Er;
      [|apply nth_error_None in Er; lia].
    pose proof (f_equal (fun l => nth_error l i) Hsh) as Hm. simpl in Hm.
    rewrite !nth_error_map, Er in Hm.
    destruct (nth_error sampled i) as [y|]; simpl in Hm; [|discriminate].
    injection Hm as Hm. eauto. }
  assert (Hcat : forall (m : matrix) i row, (i < n)%nat -> nth_error m i = Some row ->
            nth_error (cat_rows (column n s) m (column n s)) i = Some ([s] ++ row ++ [s])).
  { intros m i row Hi Hm. rewrite nth_error_cat_rows. unfold column.
    rewrite nth_error_repeat_lt by exact Hi. rewrite Hm. reflexivity. }
  rewrite forallb_forall. split.
  - intros H row Hin. destruct (In_nth_error _ _ Hin) as [i Hi].
    assert (Hlt : (i < n)%nat) by (rewrite <- Hn; apply nth_error_Some; congruence).
    assert (Hin_i : In i (seq 0 n)) by (apply in_seq; lia).
    specialize (H i Hin_i). rewrite forallb_forall in H.
    destruct nt as [|nt']; [lia|].
    assert (Hin_j : In nt' (seq 0 (Datatypes.S nt'))) by (apply in_seq; lia).
    specialize (H nt' Hin_j). unfold in_bounds in H.
    rewrite (Hcat raw i row Hlt Hi) in H. apply andb_prop in H as [H _].
    apply Nat.ltb_lt in H. simpl in H. rewrite length_app in H. simpl in H. lia.
  - intros H i Hi. apply in_seq in Hi.
    destruct (Hrow i ltac:(lia)) as (row & y & Er & Es & Hly).
    apply forallb_forall. intros j Hj. apply in_seq in Hj.
    pose proof (H row (nth_error_In _ _ Er)) as Hw.
    unfold in_bounds. rewrite (Hcat raw i row ltac:(lia) Er), (Hcat sampled i y ltac:(lia) Es).
    apply andb_true_intro. split; apply Nat.ltb_lt; simpl; rewrite length_app; simpl; lia.
Qed.

(** X4: [calculate_robot_assignment] raises only off the end-game path:
    with [RuntimeError] when the stochastic spread is negative or the
    network's output does not have one row per robot, and with [IndexError]
    when debugging is on and some output row, framed by the two sentinel
    columns, is narrower than the snapshot's task list.  When none of these
    holds, it returns. *)
Theorem calc_raises_iff st noise sim :
  match out_ret (calc st noise sim) with
  | Raise e =>
      (forall t, pending_incomplete sim <> [t]) /\
      (((exists sd, variant st = Stochastic sd /\ sd < 0) /\ e = RuntimeError) \/
       (length (tm (snd (extract st sim)) (fst (extract st sim)) (task_adjacency sim))
          <> length (robots sim) /\ e = RuntimeError) \/
       (debug st = true /\
        (exists row, In row (tm (snd (extract st sim)) (fst (extract st sim))
                               (task_adjacency sim)) /\
                     (length row + 2 < length (tasks sim))%nat) /\
        e = IndexError))
  | Ok _ =>
      (exists t, pending_incomplete sim = [t]) \/
      (~ (exists sd, variant st = Stochastic sd /\ sd < 0) /\
       length (tm (snd (extract st sim)) (fst (extract st sim)) (task_adjacency sim))
         = length (robots sim) /\
       (debug st = true ->
        forall row, In row (tm (snd (extract st sim)) (fst (extract st sim))
                              (task_adjacency sim)) ->
          (length (tasks sim) <= length row + 2)%nat))
  end.
Proof.
  destruct (pending_incomplete sim) as [|t [|t' l]] eqn:Hp0.
  2:{ rewrite (endgame_outcome tfv rfv tm build slv fr fo st noise sim t Hp0). simpl.
      left. exists t. reflexivity. }
  all: assert (Hn : forall t, pending_incomplete sim <> [t])
         by (intros t0; rewrite Hp0; congruence).
  all: unfold calculate_robot_assignment; rewrite Hp0.
  all: destruct (extract st sim) as [tf rf] eqn:Hx; cbn [fst snd].
  all: set (raw := tm rf tf (task_adjacency sim)).
  all: pose proof (sample_rewards_cases (variant st) noise (clamp_matrix eps raw)) as Hsh.
  all: destruct (sample_rewards (variant st) noise (clamp_matrix eps raw))
         as [sampled|e] eqn:Hs.
  all: try (match type of Hs with _ = Raise _ => idtac end;
            destruct Hsh as [-> Hneg]; simpl;
            split; [intros t0; congruence | left; split; [exact Hneg | reflexivity]]).
  all: assert (Hlen : length sampled = length raw)
         by (rewrite (map_length_eq _ _ Hsh); unfold clamp_matrix; apply length_map).
  all: assert (Hshape : map (@length Q) sampled = map (@length Q) raw)
         by (rewrite Hsh; unfold clamp_matrix; rewrite map_map;
             apply map_ext; intros a; apply length_map).
  all: assert (Hpos : ~ exists sd, variant st = Stochastic sd /\ sd < 0)
         by (intros (sd & Hv & Hlt); rewrite Hv in Hs;
             exact (sample_rewards_ok_nonneg _ _ _ _ Hs Hlt)).
  all: destruct (Nat.eq_dec (length raw) (length (robots sim))) as [Heq|Hne].
  all: try (rewrite (cat3_mismatch (column (length (robots sim)) sentinel_reward) sampled
                (column (length (robots sim)) sentinel_reward))
              by (unfold column; rewrite repeat_length; lia);
            simpl; split; [intros t0; congruence | right; left; split; [exact Hne | reflexivity]]).
  all: rewrite (cat3_eq (column (length (robots sim)) sentinel_reward) sampled
                  (column (length (robots sim)) sentinel_reward))
         by (unfold column; rewrite repeat_length; lia).
  all: rewrite (cat3_eq (column (length (robots sim)) sentinel_reward) raw
                  (column (length (robots sim)) sentinel_reward))
         by (unfold column; rewrite repeat_length; lia).
  all: pose proof (debug_reads_in_range (length (robots sim)) (length (tasks sim))
                     sentinel_reward raw sampled Heq Hshape) as Hrange.
  all: unfold debug_print; destruct (debug st) eqn:Hdb.
  all: try match goal with |- context [if forallb ?f ?l then _ else _] =>
         destruct (forallb f l) eqn:Hf end.
  all: try (simpl; split; [intros t0; congruence|]; right; right;
            split; [reflexivity|]; split; [|reflexivity];
            destruct (forallb (fun row => Nat.leb (length (tasks sim)) (length row + 2)) raw)
              eqn:Hb;
            [ exfalso; assert (Ht : false = true)
                by (apply (proj2 Hrange); intros row Hrow;
                    rewrite forallb_forall in Hb; apply Nat.leb_le; exact (Hb row Hrow));
              discriminate
            | destruct (forallb_false _ _ Hb) as (row & Hrow & Hle);
              apply Nat.leb_gt in Hle; exists row; split; [exact Hrow | lia] ]).
  all: destruct (bipartite_matcher st) as [m0|].
  all: destruct (slv _ _) as [m' sol]; simpl.
  all: right; split; [exact Hpos|]; split; [exact Heq|].
  all: intros Hd; try discriminate; apply (proj1 Hrange); reflexivity.
Qed.

Lemma calc_matcher_cache st noise sim :
  (out_sched (calc st noise sim) = st \/
   exists m', out_sched (calc st noise sim) = set_matcher Matcher st m') /\
  (length (filter is_build_call (out_calls (calc st noise sim))) <= 1)%nat /\
  (bipartite_matcher st <> None ->
   length (filter is_build_call (out_calls (calc st noise sim))) = 0%nat) /\
  (bipartite_matcher (out_sched (calc st noise sim)) = None ->
   length (filter is_build_call (out_calls (calc st noise sim))) = 0%nat) /\
  (forall pr, In (CallSolve pr) (out_calls (calc st noise sim)) ->
     bipartite_matcher (out_sched (calc st noise sim)) <> None).
Proof.
  unfold calculate_robot_assignment. crunch_calc;
    repeat split; simpl; try lia; try congruence; eauto;
    try (right; eexists; reflexivity);
    try (intros ? H; repeat (destruct H as [H|H]; try discriminate); congruence).
Qed.

(** X7: over any sequence of decision points served by one scheduler
    object, the cached matcher is built at most once, and never when the
    scheduler already holds one; once the matcher has been used, the
    scheduler keeps a matcher. *)
Theorem matcher_built_at_most_once st inputs :
  (length (filter is_build_call
             (snd (decision_points Feat tfv rfv tm Matcher build slv fr fo st inputs)))
   <= match bipartite_matcher st with None => 1 | Some _ => 0 end)%nat /\
  (bipartite_matcher st <> None ->
   bipartite_matcher (fst (decision_points Feat tfv rfv tm Matcher build slv fr fo st inputs))
     <> None) /\
  (forall pr, In (CallSolve pr)
                (snd (decision_points Feat tfv rfv tm Matcher build slv fr fo st inputs)) ->
   bipartite_matcher (fst (decision_points Feat tfv rfv tm Matcher build slv fr fo st inputs))
     <> None).
Proof.
  revert st. induction inputs as [|[noise sim] rest IH]; intros st; simpl.
  - split; [destruct (bipartite_matcher st); lia|]. split; [auto|]. intros ? [].
  - destruct (calc_matcher_cache st noise sim) as (Hst & Hle1 & Hhad & Hnone & Hsolve).
    destruct (IH (out_sched (calc st noise sim))) as (IH1 & IH2 & IH3).
    destruct (decision_points Feat tfv rfv tm Matcher build slv fr fo
                (out_sched (calc st noise sim)) rest) as [st' calls] eqn:Hd.
    cbn [fst snd] in *.
    assert (Hkeep : bipartite_matcher st <> None ->
                    bipartite_matcher (out_sched (calc st noise sim)) <> None).
    { destruct Hst as [->|[m' ->]]; auto. simpl. discriminate. }
    split; [|split].
    + rewrite filter_app, length_app.
      destruct (bipartite_matcher st) eqn:Ebm.
      * rewrite Hhad by discriminate.
        destruct (bipartite_matcher (out_sched (calc st noise sim))) eqn:Ebo; [lia|].
        exfalso. apply Hkeep; congruence.
      * destruct (bipartite_matcher (out_sched (calc st noise sim))) eqn:Ebo.
        -- lia.
        -- rewrite Hnone by reflexivity. lia.
    + intros H. apply IH2. apply Hkeep. exact H.
    + intros pr Hin. apply in_app_or in Hin as [Hin|Hin].
      * apply IH2. exact (Hsolve pr Hin).
      * exact (IH3 pr Hin).
Qed.

End Calc.
End SchedulerExtras.

(** ** The worst-case bound and the simulation loop *)

Module BenchmarkExtras.
Import Sadcher Init Benchmark.

Lemma Qle_qmax_l x y : x <= qmax x y.
Proof.
  unfold qmax. destruct (Qle_bool x y) eqn:E; [apply Qle_bool_iff; exact E|apply Qle_refl].
Qed.

Lemma Qle_qmax_r x y : y <= qmax x y.
Proof.
  unfold qmax. destruct (Qle_bool x y) eqn:E; [apply Qle_refl|].
  apply Qlt_le_weak. apply Qnot_le_lt. intros H. apply Qle_bool_iff in H. congruence.
Qed.

Lemma fold_qmax_spec xs x :
  In (fold_left qmax xs x) (x :: xs) /\
  forall y, In y (x :: xs) -> y <= fold_left qmax xs x.
Proof.
  revert x. induction xs as [|z xs IH]; intros x; simpl.
  - split; [now left|]. intros y [<-|[]]. apply Qle_refl.
  - destruct (IH (qmax x z)) as [Hin Hge]. split.
    + destruct Hin as [Hq|Hin]; [|right; right; exact Hin].
      rewrite <- Hq. unfold qmax. destruct (Qle_bool x z); [right; now left | now left].
    + intros y [<-|[<-|Hy]].
      * apply (Qle_trans _ (qmax x z)); [apply Qle_qmax_l|apply Hge; now left].
      * apply (Qle_trans _ (qmax x z)); [apply Qle_qmax_r|apply Hge; now left].
      * apply Hge. right. exact Hy.
Qed.

Lemma np_max_spec row m :
  np_max row = Ok m -> In m row /\ forall x, In x row -> x <= m.
Proof.
  destruct row as [|x xs]; simpl; [discriminate|]. intros H. injection H as <-.
  apply fold_qmax_spec.
Qed.

Lemma max_travel_spec t ks :
  match max_travel t ks with
  | Ok ms => Forall2 (fun k m => exists row, nth_error t k = Some row /\ np_max row = Ok m)
               ks ms
  | Raise e => exists k, In k ks /\
      ((nth_error t k = None /\ e = IndexError) \/
       (nth_error t k = Some [] /\ e = ValueError))
  end.
Proof.
  induction ks as [|k ks IH]; simpl; [constructor|].
  destruct (nth_error t k) as [row|] eqn:Hk.
  - destruct (np_max row) as [m|e] eqn:Hm.
    + destruct (max_travel t ks) as [ms|e].
      * constructor; [eauto|exact IH].
      * destruct IH as (k' & Hin & H). exists k'. split; [right; exact Hin|exact H].
    + exists k. split; [now left|]. right.
      destruct row; simpl in Hm; [injection Hm as <-; auto | discriminate].
  - exists k. split; [now left|]. left. auto.
Qed.

Lemma max_travel_ok t ks :
  (forall k, In k ks -> exists x xs, nth_error t k = Some (x :: xs)) ->
  exists ms, max_travel t ks = Ok ms.
Proof.
  induction ks as [|k ks IH]; intros H; simpl; [eauto|].
  destruct (H k (or_introl eq_refl)) as (x & xs & ->). simpl.
  destruct IH as [ms ->]; [intros k' Hk'; apply H; now right|]. eauto.
Qed.

Lemma Forall2_seq_nth {B : Type} (P : nat -> B -> Prop) j n (ms : list B) d :
  Forall2 P (seq j n) ms -> forall i, (i < n)%nat -> P (j + i)%nat (nth i ms d).
Proof.
  revert j ms. induction n as [|n IH]; intros j ms H i Hi; [lia|].
  simpl in H. inversion H as [|? m ? ms' Hp Hr]; subst.
  destruct i as [|i]; simpl.
  - rewrite Nat.add_0_r. exact Hp.
  - replace (j + Datatypes.S i)%nat with (Datatypes.S j + i)%nat by lia.
    apply IH; [exact Hr|lia].
Qed.

Lemma worst_case_makespan_cases pi :
  match worst_case_makespan pi with
  | Ok w =>
      exists ms, w = np_sum (T_e pi) + np_sum ms /\ length ms = length (T_e pi) /\
        forall k, (k < length (T_e pi))%nat ->
          exists row, nth_error (T_t pi) k = Some row /\
            In (nth k ms 0) row /\ forall x, In x row -> x <= nth k ms 0
  | Raise e =>
      exists k, (k < length (T_e pi))%nat /\
        ((nth_error (T_t pi) k = None /\ e = IndexError) \/
         (nth_error (T_t pi) k = Some [] /\ e = ValueError))
  end.
Proof.
  unfold worst_case_makespan.
  pose proof (max_travel_spec (T_t pi) (seq 0 (length (T_e pi)))) as H.
  destruct (max_travel (T_t pi) (seq 0 (length (T_e pi)))) as [ms|e].
  - exists ms. split; [reflexivity|]. split.
    + rewrite <- (Forall2_length H). apply length_seq.
    + intros k Hk. destruct (Forall2_seq_nth _ 0 _ ms 0 H k Hk) as (row & Hr & Hm).
      exists row. split; [exact Hr|]. apply np_max_spec. exact Hm.
  - destruct H as (k & Hin & Hk). apply in_seq in Hin. exists k. split; [lia|exact Hk].
Qed.

(** X8: when [worst_case_makespan] succeeds, the bound is the sum of the
    execution durations plus, for each task index [k] below the number of
    tasks, the largest entry of row [k] of [T_t]; when it raises, some such
    row is missing ([IndexError]) or empty ([ValueError]). *)
Theorem worst_case_makespan_spec pi :
  match worst_case_makespan pi with
  | Ok w =>
      exists ms, w = np_sum (T_e pi) + np_sum ms /\ length ms = length (T_e pi) /\
        forall k, (k < length (T_e pi))%nat ->
          exists row, nth_error (T_t pi) k = Some row /\
            In (nth k ms 0) row /\ forall x, In x row -> x <= nth k ms 0
  | Raise e =>
      exists k, (k < length (T_e pi))%nat /\
        ((nth_error (T_t pi) k = None /\ e = IndexError) \/
         (nth_error (T_t pi) k = Some [] /\ e = ValueError))
  end.
Proof. exact (worst_case_makespan_cases pi). Qed.

(** X9: [worst_case_makespan] raises exactly when some task index below the
    number of tasks has no row of travel times, or an empty one. *)
Theorem worst_case_makespan_raises_iff pi :
  (exists e, worst_case_makespan pi = Raise e) <->
  exists k, (k < length (T_e pi))%nat /\
    (nth_error (T_t pi) k = None \/ nth_error (T_t pi) k = Some []).
Proof.
  pose proof (worst_case_makespan_cases pi) as Hs.
  split.
  - intros [e He]. rewrite He in Hs. destruct Hs as (k & Hk & [[H _]|[H _]]); eauto.
  - intros (k & Hk & Hbad).
    destruct (worst_case_makespan pi) as [w|e]; [|eauto]. exfalso.
    destruct Hs as (ms & _ & _ & Hrows). destruct (Hrows k Hk) as (row & Hr & Hin & _).
    destruct Hbad as [Hb|Hb]; rewrite Hb in Hr; [discriminate|].
    injection Hr as <-. destruct Hin.
Qed.

Section Run.
Context {SimObj : Type} (sim_done : SimObj -> bool) (timestep makespan : SimObj -> Q)
  (step_until_next_decision_point : SimObj -> SimObj) {RLState : Type}
  (decision_point : Scheduler RLState -> SimObj -> Scheduler RLState * SimObj).

Local Abbreviation loop :=
  (sim_loop SimObj sim_done timestep makespan step_until_next_decision_point RLState
     decision_point).

(** X10: the loop's answers.  An infeasible run reports exactly the bound;
    a feasible one reports the makespan of a finished simulation that is
    either the one it started from or one reached without passing the
    bound. *)
Theorem sim_loop_outcome fuel worst sch sim :
  match sim_loop SimObj sim_done timestep makespan step_until_next_decision_point RLState
          decision_point fuel worst sch sim with
  | Some (m, false) => m = worst
  | Some (m, true) =>
      exists s, sim_done s = true /\ m = makespan s /\ (s = sim \/ ~ worst < timestep s)
  | None => True
  end.
Proof.
  revert sch sim. induction fuel as [|n IH]; intros sch sim; simpl; [exact I|].
  destruct (sim_done sim) eqn:Hd; [eauto|].
  destruct (decision_point sch sim) as [sch' sim1].
  destruct (Qltb worst (timestep (step_until_next_decision_point sim1))) eqn:Hb;
    [reflexivity|].
  specialize (IH sch' (step_until_next_decision_point sim1)).
  destruct (loop n worst sch' (step_until_next_decision_point sim1)) as [[m [|]]|];
    [|exact IH|exact I].
  destruct IH as (s & Hs & Hm & Hor). exists s. split; [exact Hs|]. split; [exact Hm|].
  right. destruct Hor as [->|Hle]; [|exact Hle].
  intros Hlt. apply SchedulerExtras.Qltb_spec in Hlt. congruence.
Qed.

End Run.
End BenchmarkExtras.

(** ** Loading a checkpoint into the network *)

Module InitExtras.
Import Sadcher Init InitFacts.
#[local] Open Scope string_scope.

Lemma sdict_In_inv {V : Type} (d : list (string * V)) k v k' w :
  In (k', w) (dict_set String.eqb d k v) -> (k' = k /\ w = v) \/ In (k', w) d.
Proof.
  induction d as [|[k0 v0] d IH]; simpl.
  - intros [H|[]]. injection H as <- <-. auto.
  - destruct (String.eqb k k0) eqn:E.
    + apply String.eqb_eq in E as ->.
      intros [H|H]; [injection H as <- <-; auto | auto].
    + intros [H|H]; [right; left; exact H|].
      destruct (IH H) as [?|?]; auto.
Qed.

Lemma sdict_In_new {V : Type} (d : list (string * V)) k v :
  In (k, v) (dict_set String.eqb d k v).
Proof.
  induction d as [|[k0 v0] d IH]; simpl; [now left|].
  destruct (String.eqb k k0) eqn:E; [apply String.eqb_eq in E as ->; now left | now right].
Qed.

Lemma sdict_In_other {V : Type} (d : list (string * V)) k v k' w :
  k' <> k -> In (k', w) d -> In (k', w) (dict_set String.eqb d k v).
Proof.
  intros Hne. induction d as [|[k0 v0] d IH]; simpl; [tauto|].
  destruct (String.eqb k k0) eqn:E.
  - apply String.eqb_eq in E as ->. intros [H|H].
    + injection H as -> ->. congruence.
    + now right.
  - intros [H|H]; [now left | right; auto].
Qed.

Lemma sdict_NoDup {V : Type} (d : list (string * V)) k v :
  NoDup (map fst d) -> NoDup (map fst (dict_set String.eqb d k v)).
Proof.
  induction d as [|[k0 v0] d IH]; simpl; intros Hd.
  - repeat constructor. tauto.
  - inversion Hd as [|? ? Hnin Hd']; subst.
    destruct (String.eqb k k0) eqn:E; simpl; constructor; auto.
    intros Hin. apply in_map_iff in Hin as [[k1 w] [Hk1 Hin]]. simpl in Hk1. subst k1.
    destruct (sdict_In_inv _ _ _ _ _ Hin) as [[-> _]|H].
    + rewrite String.eqb_refl in E. discriminate.
    + apply Hnin. apply in_map_iff. exists (k0, w). auto.
Qed.

Definition strip_step (d : list (string * CkObj)) (e : string * CkObj) :=
  let '(k, v) := e in dict_set String.eqb d (strip_prefix k) v.

Lemma strip_keys_fold items : strip_keys items = fold_left strip_step items [].
Proof. reflexivity. Qed.

Lemma strip_fold_NoDup items d :
  NoDup (map fst d) -> NoDup (map fst (fold_left strip_step items d)).
Proof.
  revert d. induction items as [|[k v] items IH]; intros d Hd; simpl; [exact Hd|].
  apply IH. apply sdict_NoDup. exact Hd.
Qed.

Lemma strip_fold_keep items d k w :
  In (k, w) d -> ~ In k (map (fun e => strip_prefix (fst e)) items) ->
  In (k, w) (fold_left strip_step items d).
Proof.
  revert d. induction items as [|[k0 v0] items IH]; intros d Hin Hn; simpl; [exact Hin|].
  apply IH.
  - apply sdict_In_other; [|exact Hin]. intros ->. apply Hn. now left.
  - intros H. apply Hn. now right.
Qed.

Lemma strip_fold_complete items d k0 v :
  NoDup (map (fun e => strip_prefix (fst e)) items) -> In (k0, v) items ->
  In (strip_prefix k0, v) (fold_left strip_step items d).
Proof.
  revert d. induction items as [|[k1 v1] items IH]; intros d Hnd Hin; simpl; [destruct Hin|].
  simpl in Hnd. inversion Hnd as [|? ? Hnin Hnd']; subst.
  destruct Hin as [Heq|Hin].
  - injection Heq as -> ->. apply strip_fold_keep; [apply sdict_In_new|exact Hnin].
  - apply IH; assumption.
Qed.

Lemma list_nat_eqb_refl a : list_nat_eqb a a = true.
Proof.
  unfold list_nat_eqb. rewrite Nat.eqb_refl. simpl.
  induction a as [|x a IH]; simpl; [reflexivity|]. rewrite Nat.eqb_refl. exact IH.
Qed.

Lemma list_nat_eqb_true a b : list_nat_eqb a b = true -> a = b.
Proof.
  unfold list_nat_eqb. revert b. induction a as [|x a IH]; intros [|y b]; simpl;
    try discriminate; [reflexivity|].
  intros H. apply andb_prop in H as [Hl Hf]. apply andb_prop in Hf as [Hxy Hf].
  apply Nat.eqb_eq in Hxy as ->. f_equal. apply IH. rewrite Hl, Hf. reflexivity.
Qed.

Lemma filter_checkpoint_sound cur l r :
  filter_checkpoint cur l = Ok r ->
  (forall k v, In (k, v) r ->
     In (k, v) l /\ exists sz, lookup_str k cur = Some sz /\ v = CTensor sz) /\
  (forall k, In k (map fst r) -> In k (map fst l)).
Proof.
  revert r. induction l as [|[k v] l IH]; intros r; simpl.
  - intros H. injection H as <-. simpl. split; tauto.
  - unfold keep_entry at 1.
    destruct (lookup_str k cur) as [sz|] eqn:Hk;
      [destruct v as [sz'|es]|]; [| discriminate |];
      [destruct (list_nat_eqb sz' sz) eqn:Hs|];
      destruct (filter_checkpoint cur l) as [r'|e]; try discriminate;
      intros H; injection H as <-; destruct (IH r' eq_refl) as [H1 H2].
    + split.
      * intros k0 v0 [Heq|Hin].
        -- injection Heq as <- <-. split; [now left|].
           apply list_nat_eqb_true in Hs as ->. eauto.
        -- destruct (H1 _ _ Hin) as [Hl Hsz]. split; [now right|exact Hsz].
      * intros k0 [Hk0|Hin]; [now left|right; auto].
    + split; [intros k0 v0 Hin; destruct (H1 _ _ Hin); split; [now right|auto]|].
      intros k0 Hin. right. auto.
    + split; [intros k0 v0 Hin; destruct (H1 _ _ Hin); split; [now right|auto]|].
      intros k0 Hin. right. auto.
Qed.

Lemma filter_checkpoint_NoDup cur l r :
  NoDup (map fst l) -> filter_checkpoint cur l = Ok r -> NoDup (map fst r).
Proof.
  revert r. induction l as [|[k v] l IH]; intros r Hnd; simpl.
  - intros H. injection H as <-. constructor.
  - inversion Hnd as [|? ? Hnin Hnd']; subst.
    destruct (keep_entry cur k v) as [[|]|e]; try discriminate;
      destruct (filter_checkpoint cur l) as [r'|e] eqn:Hf; try discriminate;
      intros H; injection H as <-; simpl; [constructor|]; auto.
    intros Hin. apply Hnin. exact (proj2 (filter_checkpoint_sound _ _ _ Hf) k Hin).
Qed.

Lemma filter_checkpoint_complete cur l r k sz :
  filter_checkpoint cur l = Ok r -> In (k, CTensor sz) l -> lookup_str k cur = Some sz ->
  In (k, CTensor sz) r.
Proof.
  revert r. induction l as [|[k0 v] l IH]; intros r; simpl; [intros _ []|].
  intros H Hin Hk.
  destruct (keep_entry cur k0 v) as [b|e] eqn:Hke; [|discriminate].
  destruct (filter_checkpoint cur l) as [r'|e]; [|destruct b; discriminate].
  destruct Hin as [Heq|Hin].
  - injection Heq as -> ->. unfold keep_entry in Hke. rewrite Hk, list_nat_eqb_refl in Hke.
    injection Hke as <-. injection H as <-. now left.
  - destruct b; injection H as <-; [right|]; apply IH; auto.
Qed.

Lemma load_shape torch_load msd p :
  load_model_weights torch_load msd (CkStr p) =
  match torch_load p with
  | Raise e => Raise e
  | Ok checkpoint =>
      match py_get checkpoint "state_dict" checkpoint with
      | Raise e => Raise e
      | Ok c1 =>
          match py_get c1 "policy" checkpoint with
          | Raise e => Raise e
          | Ok (CTensor _) => Raise AttributeError
          | Ok (CDict items) => filter_checkpoint msd (strip_keys items)
          end
      end
  end.
Proof. reflexivity. Qed.

Section Load.
Variable torch_load : string -> result CkObj.
Variable model_state_dict : list (string * list nat).

Local Abbreviation load := (load_model_weights torch_load model_state_dict).

(** X11: whatever the checkpoint, the layers [load_model_weights] loads
    have distinct names, each a parameter of the network, and each a tensor
    of exactly that parameter's size. *)
Theorem load_model_weights_sound ck l :
  load ck = Ok l ->
  NoDup (map fst l) /\
  forall k v, In (k, v) l ->
    exists sz, lookup_str k model_state_dict = Some sz /\ v = CTensor sz.
Proof.
  destruct ck as [|p|]; try discriminate. rewrite load_shape.
  destruct (torch_load p) as [checkpoint|e]; [|discriminate].
  destruct (py_get checkpoint "state_dict" checkpoint) as [c1|e]; [|discriminate].
  destruct (py_get c1 "policy" checkpoint) as [[sz|items]|e]; try discriminate.
  intros H. split.
  - apply (filter_checkpoint_NoDup _ _ _ (strip_fold_NoDup items [] (NoDup_nil _)) H).
  - intros k v Hin. exact (proj2 (proj1 (filter_checkpoint_sound _ _ _ H) k v Hin)).
Qed.

(** X13: a flat checkpoint of tensors with no ["state_dict"] or ["policy"]
    key, whose names stay distinct once ["scheduler_net."] is stripped,
    loads every entry whose stripped name and size match a parameter of the
    network. *)
Theorem load_model_weights_complete p items :
  torch_load p = Ok (CDict items) ->
  lookup_str "state_dict" items = None -> lookup_str "policy" items = None ->
  Forall is_tensor items ->
  NoDup (map (fun e => strip_prefix (fst e)) items) ->
  exists l, load (CkStr p) = Ok l /\
    forall k0 sz, In (k0, CTensor sz) items ->
      lookup_str (strip_prefix k0) model_state_dict = Some sz ->
      In (strip_prefix k0, CTensor sz) l.
Proof.
  intros Hload Hsd Hpol Ht Hnd. rewrite load_shape, Hload. simpl.
  rewrite Hsd. simpl. rewrite Hpol.
  destruct (filter_checkpoint_tensors model_state_dict (strip_keys items)
              (strip_keys_tensors items Ht)) as [l Hl].
  exists l. split; [exact Hl|].
  intros k0 sz Hin Hk. apply (filter_checkpoint_complete _ _ _ _ _ Hl); [|exact Hk].
  rewrite strip_keys_fold. apply strip_fold_complete; assumption.
Qed.

(** X14: a checkpoint saved as [{"state_dict": {"policy": sd}}] is read
    from [sd]. *)
Theorem load_model_weights_unwraps_policy p items :
  torch_load p = Ok (CDict [("state_dict", CDict [("policy", CDict items)])]) ->
  load (CkStr p) = filter_checkpoint model_state_dict (strip_keys items).
Proof. intros H. rewrite load_shape, H. reflexivity. Qed.

(** X15: a checkpoint saved as [{"state_dict": sd}] without a ["policy"]
    key is not unwrapped: the whole checkpoint is read as one entry named
    ["state_dict"], so a network without a parameter of that name loads
    nothing, and no error is raised. *)
Theorem load_model_weights_state_dict_only p items :
  torch_load p = Ok (CDict [("state_dict", CDict items)]) ->
  lookup_str "policy" items = None ->
  lookup_str "state_dict" model_state_dict = None ->
  load (CkStr p) = Ok [].
Proof.
  intros H Hpol Hm. rewrite load_shape, H. simpl. rewrite Hpol. simpl.
  change (strip_prefix "state_dict") with "state_dict".
  unfold keep_entry. rewrite Hm. reflexivity.
Qed.

End Load.

Lemma substring_all s : substring 0 (String.length s) s = s.
Proof. induction s as [|c s IH]; simpl; [reflexivity|]. rewrite IH. reflexivity. Qed.

(** X12: stripping is the inverse of adding the ["scheduler_net."] prefix. *)
Theorem strip_prefix_roundtrip k : strip_prefix (prefix_str ++ k) = k.
Proof.
  unfold strip_prefix. simpl.
  replace (String.prefix "" k) with true by (destruct k; reflexivity).
  rewrite Nat.sub_0_r. apply substring_all.
Qed.

End InitExtras.

(** * Instances of the further properties *)

Module ExtraEvidence.
Import Sadcher Init InitFacts.
#[local] Open Scope string_scope.

Lemma returned_matrix_is_matcher_input_witness :
  out_ret (Sample.calc Deterministic Sample.running_sim) =
    Ok (RetPair [[-1000; 1 # 2; 1 # 2; -1000]] (mkSchedule [(0%nat, 1%nat)])) /\
  ((exists t, pending_incomplete Sample.running_sim = [t] /\
              out_calls (Sample.calc Deterministic Sample.running_sim) = []) \/
   In (CallSolve [[-1000; 1 # 2; 1 # 2; -1000]])
      (out_calls (Sample.calc Deterministic Sample.running_sim))).
Proof.
  assert (H : out_ret (Sample.calc Deterministic Sample.running_sim) =
              Ok (RetPair [[-1000; 1 # 2; 1 # 2; -1000]] (mkSchedule [(0%nat, 1%nat)])))
    by (vm_compute; reflexivity).
  split; [exact H|].
  exact (SchedulerExtras.returned_matrix_is_matcher_input Sample.tfv Sample.rfv
           Sample.oracle Sample.build Sample.solve Sample.keep Sample.keep
           (Sample.st Deterministic) Sample.noise Sample.running_sim _ _ H).
Defined.

(** With debugging on, a network output narrower than the snapshot's task
    list makes the debug block raise [IndexError] before the matcher. *)
Lemma debug_block_raises_on_narrow_output :
  out_ret (calculate_robot_assignment nat Sample.tfv Sample.rfv
             (fun rf tf adj => map (fun _ => []) rf) unit Sample.build Sample.solve
             Sample.keep Sample.keep (mkScheduler unit true 100 100 None Deterministic)
             Sample.noise Sample.running_sim) = Raise IndexError /\
  out_ret (calculate_robot_assignment nat Sample.tfv Sample.rfv
             (fun rf tf adj => map (fun _ => []) rf) unit Sample.build Sample.solve
             Sample.keep Sample.keep (mkScheduler unit false 100 100 None Deterministic)
             Sample.noise Sample.running_sim) <> Raise IndexError.
Proof. split; vm_compute; [reflexivity | discriminate]. Qed.

(** A prefixed entry of the right size is loaded under its stripped name; an
    entry whose size differs from the network's is skipped. *)
Lemma load_model_weights_sound_witness :
  load_model_weights
    (fun _ => Ok (CDict [("scheduler_net.w", CTensor [2%nat]); ("b", CTensor [3%nat])]))
    [("w", [2%nat]); ("b", [4%nat])] (CkStr "model.pt") = Ok [("w", CTensor [2%nat])] /\
  NoDup (map fst [("w", CTensor [2%nat])]) /\
  forall k v, In (k, v) [("w", CTensor [2%nat])] ->
    exists sz, lookup_str k [("w", [2%nat]); ("b", [4%nat])] = Some sz /\ v = CTensor sz.
Proof.
  assert (H : load_model_weights
    (fun _ => Ok (CDict [("scheduler_net.w", CTensor [2%nat]); ("b", CTensor [3%nat])]))
    [("w", [2%nat]); ("b", [4%nat])] (CkStr "model.pt") = Ok [("w", CTensor [2%nat])])
    by (vm_compute; reflexivity).
  split; [exact H|].
  exact (InitExtras.load_model_weights_sound _ _ _ _ H).
Defined.

Lemma load_model_weights_complete_witness :
  exists l, load_model_weights
    (fun _ => Ok (CDict [("scheduler_net.w", CTensor [2%nat]); ("b", CTensor [3%nat])]))
    [("w", [2%nat]); ("b", [3%nat])] (CkStr "model.pt") = Ok l /\
  forall k0 sz, In (k0, CTensor sz)
                  [("scheduler_net.w", CTensor [2%nat]); ("b", CTensor [3%nat])] ->
    lookup_str (strip_prefix k0) [("w", [2%nat]); ("b", [3%nat])] = Some sz ->
    In (strip_prefix k0, CTensor sz) l.
Proof.
  apply (InitExtras.load_model_weights_complete
           (fun _ => Ok (CDict [("scheduler_net.w", CTensor [2%nat]);
                                ("b", CTensor [3%nat])]))
           [("w", [2%nat]); ("b", [3%nat])] "model.pt"
           [("scheduler_net.w", CTensor [2%nat]); ("b", CTensor [3%nat])]).
  - reflexivity.
  - reflexivity.
  - reflexivity.
  - repeat constructor; eexists; reflexivity.
  - vm_compute. constructor; [intros [H|[]]; discriminate|].
    constructor; [intros []|constructor].
Defined.

Lemma load_model_weights_unwraps_policy_witness :
  load_model_weights
    (fun _ => Ok (CDict [("state_dict",
                          CDict [("policy", CDict [("scheduler_net.w", CTensor [2%nat])])])]))
    [("w", [2%nat])] (CkStr "model.pt") = Ok [("w", CTensor [2%nat])].
Proof.
  rewrite (InitExtras.load_model_weights_unwraps_policy
             (fun _ => Ok (CDict [("state_dict",
                          CDict [("policy", CDict [("scheduler_net.w", CTensor [2%nat])])])]))
             [("w", [2%nat])] "model.pt" [("scheduler_net.w", CTensor [2%nat])] eq_refl).
  vm_compute. reflexivity.
Defined.

(** The inner dict holds a layer the network has, yet nothing is loaded. *)
Lemma load_model_weights_state_dict_only_witness :
  load_model_weights
    (fun _ => Ok (CDict [("state_dict", CDict [("w", CTensor [2%nat])])]))
    [("w", [2%nat])] (CkStr "model.pt") = Ok [].
Proof.
  exact (InitExtras.load_model_weights_state_dict_only
           (fun _ => Ok (CDict [("state_dict", CDict [("w", CTensor [2%nat])])]))
           [("w", [2%nat])] "model.pt" [("w", CTensor [2%nat])] eq_refl eq_refl eq_refl).
Defined.

End ExtraEvidence.
